(** * GameClient: the client-side simulation and state-synchronisation loop

    A shallow embedding of [src/game.js] (class [GameClient]): the entity
    store, the inbound-message handler, the camera, and the per-frame local
    simulation (item pickup, snake damage, floating-text ageing).

    Numbers.  JavaScript numbers are modelled by exact arithmetic: world
    coordinates, sizes and camera offsets are rationals ([Q]); health,
    lifetimes and clock readings take integer values only and are [Z]; the
    inventory counters only ever count up from zero and are [nat].
    [Math.sqrt] has no rational counterpart, so the one place it is used
    (a comparison [Math.sqrt(a) < t]) is embedded as the decision procedure
    [sqrt_lt], which lemma [sqrt_lt_spec] relates to the real square root.

    Objects.  Player records are JavaScript objects that are shared between
    [this.players] and [this.myPlayer]; they live in an explicit store
    ([heap]) and are referred to by location, so that "the same object" is
    equality of locations.  [this.players] is an object used as a map from
    ids to player objects and is a [gmap]; ids are assumed not to collide
    with the property names inherited from [Object.prototype]. *)

From Stdlib Require Import ZArith QArith Qminmax Qround Reals Qreals Lra Lia.
From Stdlib Require Import Ascii HexadecimalString.
From Stdlib Require Lqa.
From stdpp Require Import gmap strings list pretty.

Local Open Scope Q_scope.

(** ** Numeric primitives *)

(** [a < b] on numbers. *)
Definition Qltb (a b : Q) : bool := negb (Qle_bool b a).

(** [Math.pow(a, 2)]. *)
Definition pow2 (a : Q) : Q := a * a.

(** [Math.sqrt(a) < t], for a sum of squares [a]. *)
Definition sqrt_lt (a t : Q) : bool := Qltb 0 t && Qltb a (t * t).

(** ** Data model *)

Inductive Facing := north | south | east | west.

Module Player.
(** A player object as the client reads it.  The identity is read under
    both property names: [playerId] when a joining player is inserted,
    [id] when the local outline is drawn. *)
Record t := mk {
  playerId : string;
  id : string;
  username : string;
  x : Q;
  y : Q;
  facing : Facing;
  animationFrame : Z;
  avatar : string
}.
End Player.

Module PlayerDelta.
(** A partial player object of a [players_moved] batch: each property is
    either supplied or missing. *)
Record t := mk {
  playerId : option string;
  id : option string;
  username : option string;
  x : option Q;
  y : option Q;
  facing : option Facing;
  animationFrame : option Z;
  avatar : option string
}.
End PlayerDelta.

Module Avatar.
Record t := mk {
  name : string;
  frames_north : list string;
  frames_south : list string;
  frames_east : list string
}.
End Avatar.

Inductive ItemType := banana | apple | blueberry.

Module Item.
Record t := mk {
  id : nat;
  type : ItemType;
  x : Q;
  y : Q;
  collected : bool
}.
End Item.

Module Snake.
Record t := mk {
  id : nat;
  x : Q;
  y : Q
}.
End Snake.

Module FloatingText.
Record t := mk {
  x : Q;
  y : Q;
  text : string;
  color : string;
  life : Z;
  maxLife : Z;
  velocityY : Q
}.
End FloatingText.

Module Inventory.
Record t := mk {
  bananas : nat;
  apples : nat;
  blueberries : nat
}.
End Inventory.

(** Locations of player objects in the store. *)
Abbreviation loc := nat (only parsing).

(** The fields of [GameClient] that the simulation and the message handler
    read or write.  [canvas_width] and [canvas_height] are
    [this.canvas.width] and [this.canvas.height]. *)
Record GameClient := mkGameClient {
  worldWidth : Q;
  worldHeight : Q;
  canvas_width : Q;
  canvas_height : Q;
  playerId : option string;
  myPlayer : option loc;
  players : gmap string loc;
  heap : list Player.t;
  avatars : gmap string Avatar.t;
  cameraX : Q;
  cameraY : Q;
  playerHealth : Z;
  items : list Item.t;
  inventory : Inventory.t;
  itemSize : Q;
  snakes : list Snake.t;
  snakeWidth : Q;
  snakeHeight : Q;
  lastSnakeDamage : Z;
  floatingTexts : list FloatingText.t
}.

(** Field assignments [this.f = v]. *)
Definition with_canvas (w h : Q) (s : GameClient) : GameClient :=
  mkGameClient (worldWidth s) (worldHeight s) w h (playerId s) (myPlayer s)
    (players s) (heap s) (avatars s) (cameraX s) (cameraY s) (playerHealth s)
    (items s) (inventory s) (itemSize s) (snakes s) (snakeWidth s)
    (snakeHeight s) (lastSnakeDamage s) (floatingTexts s).

Definition with_playerId (v : option string) (s : GameClient) : GameClient :=
  mkGameClient (worldWidth s) (worldHeight s) (canvas_width s) (canvas_height s)
    v (myPlayer s) (players s) (heap s) (avatars s) (cameraX s) (cameraY s)
    (playerHealth s) (items s) (inventory s) (itemSize s) (snakes s)
    (snakeWidth s) (snakeHeight s) (lastSnakeDamage s) (floatingTexts s).

Definition with_myPlayer (v : option loc) (s : GameClient) : GameClient :=
  mkGameClient (worldWidth s) (worldHeight s) (canvas_width s) (canvas_height s)
    (playerId s) v (players s) (heap s) (avatars s) (cameraX s) (cameraY s)
    (playerHealth s) (items s) (inventory s) (itemSize s) (snakes s)
    (snakeWidth s) (snakeHeight s) (lastSnakeDamage s) (floatingTexts s).

Definition with_players (v : gmap string loc) (s : GameClient) : GameClient :=
  mkGameClient (worldWidth s) (worldHeight s) (canvas_width s) (canvas_height s)
    (playerId s) (myPlayer s) v (heap s) (avatars s) (cameraX s) (cameraY s)
    (playerHealth s) (items s) (inventory s) (itemSize s) (snakes s)
    (snakeWidth s) (snakeHeight s) (lastSnakeDamage s) (floatingTexts s).

Definition with_heap (v : list Player.t) (s : GameClient) : GameClient :=
  mkGameClient (worldWidth s) (worldHeight s) (canvas_width s) (canvas_height s)
    (playerId s) (myPlayer s) (players s) v (avatars s) (cameraX s) (cameraY s)
    (playerHealth s) (items s) (inventory s) (itemSize s) (snakes s)
    (snakeWidth s) (snakeHeight s) (lastSnakeDamage s) (floatingTexts s).

Definition with_avatars (v : gmap string Avatar.t) (s : GameClient) : GameClient :=
  mkGameClient (worldWidth s) (worldHeight s) (canvas_width s) (canvas_height s)
    (playerId s) (myPlayer s) (players s) (heap s) v (cameraX s) (cameraY s)
    (playerHealth s) (items s) (inventory s) (itemSize s) (snakes s)
    (snakeWidth s) (snakeHeight s) (lastSnakeDamage s) (floatingTexts s).

Definition with_camera (cx cy : Q) (s : GameClient) : GameClient :=
  mkGameClient (worldWidth s) (worldHeight s) (canvas_width s) (canvas_height s)
    (playerId s) (myPlayer s) (players s) (heap s) (avatars s) cx cy
    (playerHealth s) (items s) (inventory s) (itemSize s) (snakes s)
    (snakeWidth s) (snakeHeight s) (lastSnakeDamage s) (floatingTexts s).

Definition with_playerHealth (v : Z) (s : GameClient) : GameClient :=
  mkGameClient (worldWidth s) (worldHeight s) (canvas_width s) (canvas_height s)
    (playerId s) (myPlayer s) (players s) (heap s) (avatars s) (cameraX s)
    (cameraY s) v (items s) (inventory s) (itemSize s) (snakes s)
    (snakeWidth s) (snakeHeight s) (lastSnakeDamage s) (floatingTexts s).

Definition with_items (v : list Item.t) (s : GameClient) : GameClient :=
  mkGameClient (worldWidth s) (worldHeight s) (canvas_width s) (canvas_height s)
    (playerId s) (myPlayer s) (players s) (heap s) (avatars s) (cameraX s)
    (cameraY s) (playerHealth s) v (inventory s) (itemSize s) (snakes s)
    (snakeWidth s) (snakeHeight s) (lastSnakeDamage s) (floatingTexts s).

Definition with_inventory (v : Inventory.t) (s : GameClient) : GameClient :=
  mkGameClient (worldWidth s) (worldHeight s) (canvas_width s) (canvas_height s)
    (playerId s) (myPlayer s) (players s) (heap s) (avatars s) (cameraX s)
    (cameraY s) (playerHealth s) (items s) v (itemSize s) (snakes s)
    (snakeWidth s) (snakeHeight s) (lastSnakeDamage s) (floatingTexts s).

Definition with_snakes (v : list Snake.t) (s : GameClient) : GameClient :=
  mkGameClient (worldWidth s) (worldHeight s) (canvas_width s) (canvas_height s)
    (playerId s) (myPlayer s) (players s) (heap s) (avatars s) (cameraX s)
    (cameraY s) (playerHealth s) (items s) (inventory s) (itemSize s) v
    (snakeWidth s) (snakeHeight s) (lastSnakeDamage s) (floatingTexts s).

Definition with_lastSnakeDamage (v : Z) (s : GameClient) : GameClient :=
  mkGameClient (worldWidth s) (worldHeight s) (canvas_width s) (canvas_height s)
    (playerId s) (myPlayer s) (players s) (heap s) (avatars s) (cameraX s)
    (cameraY s) (playerHealth s) (items s) (inventory s) (itemSize s)
    (snakes s) (snakeWidth s) (snakeHeight s) v (floatingTexts s).

Definition with_floatingTexts (v : list FloatingText.t) (s : GameClient) : GameClient :=
  mkGameClient (worldWidth s) (worldHeight s) (canvas_width s) (canvas_height s)
    (playerId s) (myPlayer s) (players s) (heap s) (avatars s) (cameraX s)
    (cameraY s) (playerHealth s) (items s) (inventory s) (itemSize s)
    (snakes s) (snakeWidth s) (snakeHeight s) (lastSnakeDamage s) v.

(** The object [this.myPlayer] refers to, if it is set. *)
Definition thePlayer (s : GameClient) : option Player.t :=
  match myPlayer s with
  | Some l => heap s !! l
  | None => None
  end.

(** ** Construction: [constructor], [init], [spawnItems], [spawnSnakes] *)

(** [for (let i = 0; i < n; i++) body] *)
Definition for_loop {S : Type} (n : nat) (body : nat → S → S) (s : S) : S :=
  foldl (λ acc i, body i acc) s (seq 0 n).

Definition itemTypes : list ItemType := [banana; apple; blueberry].

(** [itemTypes[Math.floor(r * itemTypes.length)]] for a result [r] of
    [Math.random()], which lies in [0, 1). *)
Definition pickType (r : Q) : ItemType :=
  default blueberry
    (itemTypes !! Z.to_nat (Qfloor (r * inject_Z (Z.of_nat (length itemTypes))))).

Section Construction.
(** Size of the browser window, and the successive results of
    [Math.random()] drawn by the two spawn loops. *)
Variables innerWidth innerHeight : Q.
Variable random : nat → Q.

(** The field initialisers of the constructor.  The canvas comes from the
    page; it has the default size of a canvas element until [setupCanvas]
    resizes it. *)
Definition constructor : GameClient := {|
  worldWidth := 2048;
  worldHeight := 2048;
  canvas_width := 300;
  canvas_height := 150;
  playerId := None;
  myPlayer := None;
  players := ∅;
  heap := [];
  avatars := ∅;
  cameraX := 0;
  cameraY := 0;
  playerHealth := 100;
  items := [];
  inventory := Inventory.mk 0 0 0;
  itemSize := 20;
  snakes := [];
  snakeWidth := 15;
  snakeHeight := 35;
  lastSnakeDamage := 0;
  floatingTexts := []
|}.

Definition setupCanvas (s : GameClient) : GameClient :=
  with_canvas innerWidth innerHeight s.

Definition spawnItems (s : GameClient) : GameClient :=
  let itemCount := 50%nat in
  for_loop itemCount (λ i s,
    let item := {|
      Item.id := i;
      Item.type := pickType (random (3 * i)%nat);
      Item.x := random (3 * i + 1)%nat * (worldWidth s - itemSize s);
      Item.y := random (3 * i + 2)%nat * (worldHeight s - itemSize s);
      Item.collected := false
    |} in
    with_items (items s ++ [item]) s) s.

Definition spawnSnakes (s : GameClient) : GameClient :=
  let snakeCount := 15%nat in
  for_loop snakeCount (λ i s,
    let snake := {|
      Snake.id := i;
      Snake.x := random (150 + 2 * i)%nat * (worldWidth s - snakeWidth s);
      Snake.y := random (150 + 2 * i + 1)%nat * (worldHeight s - snakeHeight s)
    |} in
    with_snakes (snakes s ++ [snake]) s) s.

(** [new GameClient()]: the field initialisers followed by [init()].  Of
    the steps of [init], input handling, audio, the map image and the
    socket do not write the fields modelled here. *)
Definition init : GameClient :=
  spawnSnakes (spawnItems (setupCanvas constructor)).
End Construction.

(** ** Camera: [updateCamera] *)

Definition updateCamera (s : GameClient) : GameClient :=
  match thePlayer s with
  | None => s
  | Some p =>
    let cameraX := Player.x p - canvas_width s / 2 in
    let cameraY := Player.y p - canvas_height s / 2 in
    let cameraX :=
      if Qltb (canvas_width s) (worldWidth s)
      then Qmax 0 (Qmin cameraX (worldWidth s - canvas_width s))
      else (worldWidth s - canvas_width s) / 2 in
    let cameraY :=
      if Qltb (canvas_height s) (worldHeight s)
      then Qmax 0 (Qmin cameraY (worldHeight s - canvas_height s))
      else (worldHeight s - canvas_height s) / 2 in
    with_camera cameraX cameraY s
  end.

(** The window's [resize] listener installed by [setupCanvas]. *)
Definition onResize (w h : Q) (s : GameClient) : GameClient :=
  updateCamera (with_canvas w h s).

(** ** Local simulation *)

Definition addFloatingText (x y : Q) (text color : string) (s : GameClient)
  : GameClient :=
  let floatingText := {|
    FloatingText.x := x;
    FloatingText.y := y;
    FloatingText.text := text;
    FloatingText.color := color;
    FloatingText.life := 60;
    FloatingText.maxLife := 60;
    FloatingText.velocityY := -2
  |} in
  with_floatingTexts (floatingTexts s ++ [floatingText]) s.

(** [this.inventory[itemTypeMap[type]]++] *)
Definition increment (type : ItemType) (inv : Inventory.t) : Inventory.t :=
  match type with
  | banana =>
    Inventory.mk (S (Inventory.bananas inv)) (Inventory.apples inv)
      (Inventory.blueberries inv)
  | apple =>
    Inventory.mk (Inventory.bananas inv) (S (Inventory.apples inv))
      (Inventory.blueberries inv)
  | blueberry =>
    Inventory.mk (Inventory.bananas inv) (Inventory.apples inv)
      (S (Inventory.blueberries inv))
  end.

(** [collectItem(item)], called with [this.myPlayer] bound to [p].  The item
    object is mutated in place; the mutated item is returned next to the
    new client state. *)
Definition collectItem (p : Player.t) (item : Item.t) (s : GameClient)
  : Item.t * GameClient :=
  let item := {|
    Item.id := Item.id item;
    Item.type := Item.type item;
    Item.x := Item.x item;
    Item.y := Item.y item;
    Item.collected := true
  |} in
  let s := with_inventory (increment (Item.type item) (inventory s)) s in
  let s := with_playerHealth (Z.min 100 (playerHealth s + 5)) s in
  (item, addFloatingText (Player.x p) (Player.y p - 30) "+5" "#00FF00" s).

(** Squared distance from the player to the centre of an item. *)
Definition itemDistance2 (p : Player.t) (itemRadius : Q) (item : Item.t) : Q :=
  pow2 (Player.x p - (Item.x item + itemRadius)) +
  pow2 (Player.y p - (Item.y item + itemRadius)).

(** The body of the [forEach] of [checkItemCollisions]. *)
Definition checkItem (p : Player.t) (item : Item.t) (s : GameClient)
  : Item.t * GameClient :=
  if Item.collected item then (item, s) else
  let playerRadius := 15 in
  let itemRadius := itemSize s / 2 in
  let distance2 := itemDistance2 p itemRadius item in
  let overlapThreshold := itemRadius * 0.1 in
  let totalRadius := playerRadius + itemRadius in
  if sqrt_lt distance2 (totalRadius - overlapThreshold)
  then collectItem p item s
  else (item, s).

(** [this.items.forEach(...)]: the items are visited in order, each one is
    possibly mutated, and the other fields of the client are threaded
    through. *)
Fixpoint forEachItem (p : Player.t) (l : list Item.t) (s : GameClient)
  : list Item.t * GameClient :=
  match l with
  | [] => ([], s)
  | item :: rest =>
    let '(item', s1) := checkItem p item s in
    let '(rest', s2) := forEachItem p rest s1 in
    (item' :: rest', s2)
  end.

Definition checkItemCollisions (s : GameClient) : GameClient :=
  match thePlayer s with
  | None => s
  | Some p =>
    let '(l, s') := forEachItem p (items s) s in
    with_items l s'
  end.

Definition takeSnakeDamage (p : Player.t) (s : GameClient) : GameClient :=
  let s := with_playerHealth (Z.max 0 (playerHealth s - 5)) s in
  addFloatingText (Player.x p) (Player.y p - 30) "-5" "#FF0000" s.

(** Squared distance from the player to the centre of a snake. *)
Definition snakeDistance2 (p : Player.t) (w h : Q) (snake : Snake.t) : Q :=
  let snakeCenterX := Snake.x snake + w / 2 in
  let snakeCenterY := Snake.y snake + h / 2 in
  pow2 (Player.x p - snakeCenterX) + pow2 (Player.y p - snakeCenterY).

(** The body of the [forEach] of [checkSnakeCollisions]. *)
Definition checkSnake (p : Player.t) (currentTime : Z) (s : GameClient)
  (snake : Snake.t) : GameClient :=
  let distance2 := snakeDistance2 p (snakeWidth s) (snakeHeight s) snake in
  let playerRadius := 15 in
  let snakeRadius := Qmax (snakeWidth s) (snakeHeight s) / 2 in
  let totalRadius := playerRadius + snakeRadius in
  if sqrt_lt distance2 totalRadius
  then with_lastSnakeDamage currentTime (takeSnakeDamage p s)
  else s.

(** [checkSnakeCollisions()], with [now] the value of [Date.now()]. *)
Definition checkSnakeCollisions (now : Z) (s : GameClient) : GameClient :=
  match thePlayer s with
  | None => s
  | Some p =>
    let currentTime := now in
    if (currentTime - lastSnakeDamage s <? 1000)%Z then s
    else foldl (checkSnake p currentTime) s (snakes s)
  end.

(** The callback of the [filter] of [updateFloatingTexts]: the text object
    is aged in place. *)
Definition age (text : FloatingText.t) : FloatingText.t := {|
  FloatingText.x := FloatingText.x text;
  FloatingText.y := FloatingText.y text + FloatingText.velocityY text;
  FloatingText.text := FloatingText.text text;
  FloatingText.color := FloatingText.color text;
  FloatingText.life := FloatingText.life text - 1;
  FloatingText.maxLife := FloatingText.maxLife text;
  FloatingText.velocityY := FloatingText.velocityY text
|}.

Fixpoint ageAll (l : list FloatingText.t) : list FloatingText.t :=
  match l with
  | [] => []
  | text :: rest =>
    let text := age text in
    if (0 <? FloatingText.life text)%Z
    then text :: ageAll rest
    else ageAll rest
  end.

Definition updateFloatingTexts (s : GameClient) : GameClient :=
  with_floatingTexts (ageAll (floatingTexts s)) s.

(** The state-changing part of [render()]: the three simulation steps, in
    the order in which [render] calls them. *)
Definition render (now : Z) (s : GameClient) : GameClient :=
  updateFloatingTexts (checkSnakeCollisions now (checkItemCollisions s)).

(** ** Network reconciler: [handleServerMessage] *)

(** A parsed inbound message, by [message.action].  A JSON object that maps
    ids to records is the list of its entries in key order. *)
Inductive Message :=
  | join_game_success (playerId : string)
      (players : list (string * Player.t)) (avatars : gmap string Avatar.t)
  | join_game_failure (error : string)
  | player_joined (player : Player.t) (avatar : Avatar.t)
  | players_moved (players : list (string * PlayerDelta.t))
  | player_left (playerId : string)
  | unhandled (action : string).

(** The player objects of [message.players] enter the store one by one; a
    repeated key keeps its last value, as [JSON.parse] does. *)
Definition storePlayer (acc : gmap string loc * list Player.t)
  (entry : string * Player.t) : gmap string loc * list Player.t :=
  (<[entry.1 := length acc.2]> acc.1, acc.2 ++ [entry.2]).

Definition storePlayers (entries : list (string * Player.t))
  (h : list Player.t) : gmap string loc * list Player.t :=
  foldl storePlayer (∅, h) entries.

(** The object spread [{ ...old, ...delta }]. *)
Definition spread (old : Player.t) (delta : PlayerDelta.t) : Player.t := {|
  Player.playerId := default (Player.playerId old) (PlayerDelta.playerId delta);
  Player.id := default (Player.id old) (PlayerDelta.id delta);
  Player.username := default (Player.username old) (PlayerDelta.username delta);
  Player.x := default (Player.x old) (PlayerDelta.x delta);
  Player.y := default (Player.y old) (PlayerDelta.y delta);
  Player.facing := default (Player.facing old) (PlayerDelta.facing delta);
  Player.animationFrame :=
    default (Player.animationFrame old) (PlayerDelta.animationFrame delta);
  Player.avatar := default (Player.avatar old) (PlayerDelta.avatar delta)
|}.

(** The body of the [forEach] of the [players_moved] case, for the key
    [id] with [message.players[id] = delta]. *)
Definition movePlayer (s : GameClient) (entry : string * PlayerDelta.t)
  : GameClient :=
  let '(id, delta) := entry in
  match players s !! id with
  | None => s
  | Some l =>
    match heap s !! l with
    | None => s
    | Some old =>
      let l' := length (heap s) in
      let s := with_heap (heap s ++ [spread old delta]) s in
      let s := with_players (<[id := l']> (players s)) s in
      if decide (Some id = playerId s)
      then updateCamera (with_myPlayer (players s !! id) s)
      else s
    end
  end.

Definition handleServerMessage (message : Message) (s : GameClient)
  : GameClient :=
  match message with
  | join_game_success playerId players avatars =>
    let s := with_playerId (Some playerId) s in
    let '(m, h) := storePlayers players (heap s) in
    let s := with_players m (with_heap h s) in
    let s := with_myPlayer (m !! playerId) s in
    let s := with_avatars avatars s in
    updateCamera s
  | join_game_failure _ => s
  | player_joined player avatar =>
    let l := length (heap s) in
    let s := with_heap (heap s ++ [player]) s in
    let s := with_players (<[Player.playerId player := l]> (players s)) s in
    with_avatars (<[Avatar.name avatar := avatar]> (avatars s)) s
  | players_moved players => foldl movePlayer s players
  | player_left playerId => with_players (delete playerId (players s)) s
  | unhandled _ => s
  end.

(** ** The event loop *)

(** What can happen to a client once it is constructed: a frame is rendered
    (at clock reading [now]), a message arrives, the window is resized. *)
Inductive Event :=
  | Render (now : Z)
  | Receive (message : Message)
  | Resize (w h : Q).

Definition step (s : GameClient) (e : Event) : GameClient :=
  match e with
  | Render now => render now s
  | Receive message => handleServerMessage message s
  | Resize w h => onResize w h s
  end.

Definition run (s : GameClient) (events : list Event) : GameClient :=
  foldl step s events.

(** The states a client goes through. *)
Definition reachable (s : GameClient) : Prop :=
  ∃ w h random events, s = run (init w h random) events.

(** ** Rendering: what a frame paints

    The drawing functions write to the canvas only; each one is embedded as
    the list of the calls it makes on the drawing context. *)

Module DrawImage.
(** The source and destination rectangles of a call
    [ctx.drawImage(image, sx, sy, sWidth, sHeight, dx, dy, dWidth, dHeight)]. *)
Record t := mk {
  sx : Q;
  sy : Q;
  sWidth : Q;
  sHeight : Q;
  dx : Q;
  dy : Q;
  dWidth : Q;
  dHeight : Q
}.
End DrawImage.

(** [drawWorld()]; [worldImage] tells whether [this.worldImage] is set. *)
Definition drawWorld (worldImage : bool) (s : GameClient)
  : option DrawImage.t :=
  if negb worldImage then None else
  let sourceX := cameraX s in
  let sourceY := cameraY s in
  let sourceWidth := Qmin (canvas_width s) (worldWidth s - sourceX) in
  let sourceHeight := Qmin (canvas_height s) (worldHeight s - sourceY) in
  Some (DrawImage.mk sourceX sourceY sourceWidth sourceHeight
          0 0 sourceWidth sourceHeight).

(** The body of the [forEach] of [drawItems]: the call
    [drawItem(item, screenX, screenY)], if it is made. *)
Definition drawItemAt (s : GameClient) (item : Item.t)
  : option (Item.t * Q * Q) :=
  if Item.collected item then None else
  let screenX := Item.x item - cameraX s in
  let screenY := Item.y item - cameraY s in
  if Qltb (- itemSize s) screenX &&
     Qltb screenX (canvas_width s + itemSize s) &&
     Qltb (- itemSize s) screenY &&
     Qltb screenY (canvas_height s + itemSize s)
  then Some (item, screenX, screenY)
  else None.

Definition drawItems (s : GameClient) : list (Item.t * Q * Q) :=
  omap (drawItemAt s) (items s).

(** The body of the [forEach] of [drawSnakes]: the call
    [drawSnake(snake, screenX, screenY)], if it is made. *)
Definition drawSnakeAt (s : GameClient) (snake : Snake.t)
  : option (Snake.t * Q * Q) :=
  let screenX := Snake.x snake - cameraX s in
  let screenY := Snake.y snake - cameraY s in
  if Qltb (- snakeWidth s) screenX &&
     Qltb screenX (canvas_width s + snakeWidth s) &&
     Qltb (- snakeHeight s) screenY &&
     Qltb screenY (canvas_height s + snakeHeight s)
  then Some (snake, screenX, screenY)
  else None.

Definition drawSnakes (s : GameClient) : list (Snake.t * Q * Q) :=
  omap (drawSnakeAt s) (snakes s).

Module HealthBar.
(** What [drawHealthBar] paints: the background of width [barWidth], and
    over it the fill of width [healthWidth] in colour [fillStyle]. *)
Record t := mk {
  barWidth : Q;
  healthWidth : Q;
  fillStyle : string
}.
End HealthBar.

Definition drawHealthBar (s : GameClient) : HealthBar.t :=
  let barWidth := 200 in
  let healthPercent := inject_Z (playerHealth s) / 100 in
  let healthWidth := barWidth * healthPercent in
  let fillStyle :=
    if (50 <=? playerHealth s)%Z then "#4CAF50"
    else if (20 <=? playerHealth s)%Z then "#FFC107"
    else "#F44336" in
  HealthBar.mk barWidth healthWidth fillStyle.

(** [n.toString(16)] for an integer [n]. *)
Definition toString16 (n : Z) : string :=
  match n with
  | Z0 => "0"
  | Zpos p => HexadecimalString.NilZero.string_of_uint (N.to_hex_uint (Npos p))
  | Zneg p =>
    "-" +:+ HexadecimalString.NilZero.string_of_uint (N.to_hex_uint (Npos p))
  end.

(** [str.padStart(targetLength, pad)] for a one-character [pad]. *)
Definition padStart (targetLength : nat) (pad : Ascii.ascii) (str : string)
  : string :=
  String.string_of_list_ascii
    (replicate (targetLength - String.length str) pad) +:+ str.

(** The fill colour computed by [drawFloatingText]: the colour of the text
    followed by its opacity as two hexadecimal digits.  (The lifetimes are
    integers; a [maxLife] of zero, for which JavaScript divides by zero,
    does not occur.) *)
Definition floatingTextColor (text : FloatingText.t) : string :=
  let alpha :=
    inject_Z (FloatingText.life text) / inject_Z (FloatingText.maxLife text) in
  FloatingText.color text +:+ padStart 2 "0"%char (toString16 (Qfloor (alpha * 255))).

(** [drawFloatingText(text)]: the call
    [ctx.fillText(text.text, text.x - cameraX, text.y - cameraY)] and the
    fill colour it is made with. *)
Definition drawFloatingText (s : GameClient) (text : FloatingText.t)
  : string * string * Q * Q :=
  (floatingTextColor text, FloatingText.text text,
   FloatingText.x text - cameraX s, FloatingText.y text - cameraY s).

Definition drawFloatingTexts (s : GameClient) : list (string * string * Q * Q) :=
  drawFloatingText s <$> floatingTexts s.

(** ** Avatar images: [loadAvatarImagesForPlayer] and [drawPlayer] *)

Module Image.
Record t := mk {
  src : string;
  width : Q;
  height : Q
}.
End Image.

(** The name of a direction, as it appears in cache keys. *)
Definition directionName (direction : Facing) : string :=
  match direction with
  | north => "north"
  | south => "south"
  | east => "east"
  | west => "west"
  end.

(** [avatarData.frames[direction]]; there are no frames for west. *)
Definition frames (avatarData : Avatar.t) (direction : Facing)
  : option (list string) :=
  match direction with
  | north => Some (Avatar.frames_north avatarData)
  | south => Some (Avatar.frames_south avatarData)
  | east => Some (Avatar.frames_east avatarData)
  | west => None
  end.

(** The template [`${name}_${direction}_${frame}`], [frame] already
    converted to a string. *)
Definition cacheKey (name : string) (direction : Facing) (frame : string)
  : string :=
  name +:+ "_" +:+ directionName direction +:+ "_" +:+ frame.

Section Loading.
(** The outcome of loading the image at a given address: the image, or
    nothing when the load fails. *)
Variable load : string → option Image.t.

(** The inner loop of [loadAvatarImagesForPlayer], from [frameIndex] on.  A
    frame that is cached is not loaded again; a failed load is logged and the
    loop goes on. *)
Fixpoint loadFrames (name : string) (direction : Facing) (frameIndex : nat)
  (l : list string) (avatarImages : gmap string Image.t)
  : gmap string Image.t :=
  match l with
  | [] => avatarImages
  | src :: rest =>
    let key := cacheKey name direction (pretty frameIndex) in
    let avatarImages :=
      match avatarImages !! key with
      | Some _ => avatarImages
      | None =>
        match load src with
        | Some img => <[key := img]> avatarImages
        | None => avatarImages
        end
      end in
    loadFrames name direction (S frameIndex) rest avatarImages
  end.

(** [loadAvatarImagesForPlayer(player)], run to completion on its own. *)
Definition loadAvatarImagesForPlayer (s : GameClient) (player : Player.t)
  (avatarImages : gmap string Image.t) : gmap string Image.t :=
  match avatars s !! Player.avatar player with
  | None => avatarImages
  | Some avatarData =>
    let directions := [north; south; east] in
    foldl (λ avatarImages direction,
             loadFrames (Avatar.name avatarData) direction 0
               (default [] (frames avatarData direction)) avatarImages)
      avatarImages directions
  end.
End Loading.

Module DrawPlayer.
(** What [drawPlayer] paints for one player: the avatar image, mirrored or
    not, at [(x, y)]; the green outline if the player is the local one; the
    name label. *)
Record t := mk {
  image : Image.t;
  flipHorizontal : bool;
  x : Q;
  y : Q;
  outline : bool;
  labelX : Q;
  labelY : Q;
  label : string
}.
End DrawPlayer.

(** [drawPlayer(player)]; nothing is painted when the avatar is unknown or
    its frame is not in the cache.  The facing and the frame index of a
    player record are always set. *)
Definition drawPlayer (s : GameClient) (avatarImages : gmap string Image.t)
  (player : Player.t) : option DrawPlayer.t :=
  match avatars s !! Player.avatar player with
  | None => None
  | Some avatarData =>
    let facing := Player.facing player in
    let animationFrame := Player.animationFrame player in
    let '(direction, flipHorizontal) :=
      match facing with
      | west => (east, true)
      | _ => (facing, false)
      end in
    let key := cacheKey (Avatar.name avatarData) direction (pretty animationFrame) in
    match avatarImages !! key with
    | None => None
    | Some avatarImg =>
      let screenX := Player.x player - cameraX s in
      let screenY := Player.y player - cameraY s in
      Some {|
        DrawPlayer.image := avatarImg;
        DrawPlayer.flipHorizontal := flipHorizontal;
        DrawPlayer.x :=
          if flipHorizontal then - screenX - Image.width avatarImg / 2
          else screenX - Image.width avatarImg / 2;
        DrawPlayer.y := screenY - Image.height avatarImg / 2;
        DrawPlayer.outline := bool_decide (Some (Player.id player) = playerId s);
        DrawPlayer.labelX := screenX;
        DrawPlayer.labelY := screenY - Image.height avatarImg / 2 - 10;
        DrawPlayer.label := Player.username player
      |}
    end
  end.

(** ** Input handling: [handleMovement] and the movement timer *)

(** [socket.readyState]. *)
Inductive ReadyState := CONNECTING | OPEN | CLOSING | CLOSED.

(** [readyState === WebSocket.OPEN]. *)
Definition isOpen (state : ReadyState) : bool :=
  match state with
  | OPEN => true
  | _ => false
  end.

(** The messages the client sends. *)
Inductive Outbound :=
  | join_game (username : string)
  | move (direction : string)
  | stop.

(** The fields of [GameClient] behind the keyboard handling, with the part
    of the browser they act on: the state of the socket, the interval
    timers that are live (each with the direction its callback captured),
    the handle the next [setInterval] returns, the calls made to
    [socket.send] (each with the state of the socket at the call), and the
    clock readings at which a footstep sound was started.  The socket is
    created by the constructor, before any handler can run.  [audio] tells
    whether [audioContext] and [footstepSound] are both set. *)
Record Controls := mkControls {
  pressedKeys : gset string;
  lastDirection : option string;
  isMoving : bool;
  movementInterval : option nat;
  readyState : ReadyState;
  timers : gmap nat string;
  nextTimer : nat;
  sendCalls : list (ReadyState * Outbound);
  audio : bool;
  lastFootstepTime : Z;
  footsteps : list Z
}.

Definition with_pressedKeys (v : gset string) (c : Controls) : Controls :=
  mkControls v (lastDirection c) (isMoving c) (movementInterval c)
    (readyState c) (timers c) (nextTimer c) (sendCalls c) (audio c)
    (lastFootstepTime c) (footsteps c).

Definition with_moving (d : option string) (m : bool) (c : Controls) : Controls :=
  mkControls (pressedKeys c) d m (movementInterval c)
    (readyState c) (timers c) (nextTimer c) (sendCalls c) (audio c)
    (lastFootstepTime c) (footsteps c).

Definition with_readyState (v : ReadyState) (c : Controls) : Controls :=
  mkControls (pressedKeys c) (lastDirection c) (isMoving c) (movementInterval c)
    v (timers c) (nextTimer c) (sendCalls c) (audio c)
    (lastFootstepTime c) (footsteps c).

Definition with_sendCalls (v : list (ReadyState * Outbound)) (c : Controls)
  : Controls :=
  mkControls (pressedKeys c) (lastDirection c) (isMoving c) (movementInterval c)
    (readyState c) (timers c) (nextTimer c) v (audio c)
    (lastFootstepTime c) (footsteps c).

Definition with_footstep (t : Z) (c : Controls) : Controls :=
  mkControls (pressedKeys c) (lastDirection c) (isMoving c) (movementInterval c)
    (readyState c) (timers c) (nextTimer c) (sendCalls c) (audio c)
    t (footsteps c ++ [t]).

(** [this.movementInterval = setInterval(callback, 100)], the callback
    having captured [direction]. *)
Definition setInterval (direction : string) (c : Controls) : Controls :=
  mkControls (pressedKeys c) (lastDirection c) (isMoving c)
    (Some (nextTimer c))
    (readyState c) (<[nextTimer c := direction]> (timers c))
    (S (nextTimer c)) (sendCalls c) (audio c)
    (lastFootstepTime c) (footsteps c).

(** [clearInterval(this.movementInterval); this.movementInterval = null]. *)
Definition clearInterval (id : nat) (c : Controls) : Controls :=
  mkControls (pressedKeys c) (lastDirection c) (isMoving c) None
    (readyState c) (delete id (timers c))
    (nextTimer c) (sendCalls c) (audio c)
    (lastFootstepTime c) (footsteps c).

(** [this.socket.send(JSON.stringify(message))]. *)
Definition send (message : Outbound) (c : Controls) : Controls :=
  with_sendCalls (sendCalls c ++ [(readyState c, message)]) c.

Definition joinGame (c : Controls) : Controls := send (join_game "Tim") c.

Definition sendMoveCommand (direction : string) (c : Controls) : Controls :=
  send (move direction) c.

Definition sendStopCommand (c : Controls) : Controls := send stop c.

(** [playFootstep()], with [now] the value of [Date.now()]; [started] tells
    whether the audio calls of the [try] block went through. *)
Definition playFootstep (now : Z) (started : bool) (c : Controls) : Controls :=
  if negb (audio c) then c else
  let currentTime := now in
  let footstepInterval := 300%Z in
  if (currentTime - lastFootstepTime c <? footstepInterval)%Z then c else
  if started then with_footstep currentTime c else c.

Definition startContinuousMovement (direction : string) (c : Controls)
  : Controls :=
  setInterval direction (sendMoveCommand direction c).

(** The direction that [handleMovement] reads off the pressed keys. *)
Definition currentDirection (keys : gset string) : option string :=
  if decide ("ArrowUp" ∈ keys) then Some "up"
  else if decide ("ArrowDown" ∈ keys) then Some "down"
  else if decide ("ArrowLeft" ∈ keys) then Some "left"
  else if decide ("ArrowRight" ∈ keys) then Some "right"
  else None.

Definition handleMovement (now : Z) (started : bool) (c : Controls)
  : Controls :=
  if negb (isOpen (readyState c)) then c else
  let direction := currentDirection (pressedKeys c) in
  let c :=
    match movementInterval c with
    | Some id => clearInterval id c
    | None => c
    end in
  match direction with
  | Some direction =>
    let c := with_moving (Some direction) true c in
    let c := startContinuousMovement direction c in
    playFootstep now started c
  | None =>
    let c := with_moving None false c in
    sendStopCommand c
  end.

(** The callback of the interval [id], when it is live. *)
Definition intervalFires (id : nat) (now : Z) (started : bool) (c : Controls)
  : Controls :=
  match timers c !! id with
  | None => c
  | Some direction =>
    if isOpen (readyState c) && isMoving c
    then playFootstep now started (sendMoveCommand direction c)
    else c
  end.

(** What happens to the controls: a key goes down or up, a live interval
    fires, the socket opens (its [onopen] handler joins the game) or
    closes. *)
Inductive ControlEvent :=
  | KeyDown (code : string) (now : Z) (started : bool)
  | KeyUp (code : string) (now : Z) (started : bool)
  | IntervalFires (id : nat) (now : Z) (started : bool)
  | SocketOpens
  | SocketCloses.

Definition control (c : Controls) (e : ControlEvent) : Controls :=
  match e with
  | KeyDown code now started =>
    handleMovement now started (with_pressedKeys (pressedKeys c ∪ {[code]}) c)
  | KeyUp code now started =>
    handleMovement now started (with_pressedKeys (pressedKeys c ∖ {[code]}) c)
  | IntervalFires id now started => intervalFires id now started c
  | SocketOpens =>
    match readyState c with
    | CONNECTING => joinGame (with_readyState OPEN c)
    | _ => c
    end
  | SocketCloses => with_readyState CLOSED c
  end.

(** The controls of a new client. *)
Definition newControls (audio : bool) : Controls := {|
  pressedKeys := ∅;
  lastDirection := None;
  isMoving := false;
  movementInterval := None;
  readyState := CONNECTING;
  timers := ∅;
  nextTimer := 1;
  sendCalls := [];
  audio := audio;
  lastFootstepTime := 0;
  footsteps := []
|}.

Definition controls (audio : bool) (events : list ControlEvent) : Controls :=
  foldl control (newControls audio) events.

(** ** Specification-side notions *)

(** [v] clamped into the interval from [lo] to [hi]. *)
Definition clamp (lo hi v : Q) : Q :=
  if Qltb v lo then lo else if Qltb hi v then hi else v.

(** The local player's record is the very object stored under the local id
    in the player collection. *)
Definition aliased (s : GameClient) : Prop :=
  ∀ l, myPlayer s = Some l →
    ∃ id, playerId s = Some id ∧ players s !! id = Some l.

(** [r] is [old] with exactly the supplied properties of [delta] replaced. *)
Definition supplied {A : Type} (o : option A) (old new : A) : Prop :=
  match o with
  | Some v => new = v
  | None => new = old
  end.

Definition merged (old : Player.t) (delta : PlayerDelta.t) (r : Player.t)
  : Prop :=
  supplied (PlayerDelta.playerId delta) (Player.playerId old) (Player.playerId r) ∧
  supplied (PlayerDelta.id delta) (Player.id old) (Player.id r) ∧
  supplied (PlayerDelta.username delta) (Player.username old) (Player.username r) ∧
  supplied (PlayerDelta.x delta) (Player.x old) (Player.x r) ∧
  supplied (PlayerDelta.y delta) (Player.y old) (Player.y r) ∧
  supplied (PlayerDelta.facing delta) (Player.facing old) (Player.facing r) ∧
  supplied (PlayerDelta.animationFrame delta) (Player.animationFrame old)
    (Player.animationFrame r) ∧
  supplied (PlayerDelta.avatar delta) (Player.avatar old) (Player.avatar r).

(** Sum of the three inventory counters. *)
Definition inventoryTotal (inv : Inventory.t) : nat :=
  (Inventory.bananas inv + Inventory.apples inv + Inventory.blueberries inv)%nat.

(** Number of items whose collected flag is set. *)
Definition collectedCount (l : list Item.t) : nat :=
  length (filter (λ item, Item.collected item = true) l).

(** Every counter of [inv'] is at least the one of [inv]. *)
Definition inventory_le (inv inv' : Inventory.t) : Prop :=
  (Inventory.bananas inv ≤ Inventory.bananas inv')%nat ∧
  (Inventory.apples inv ≤ Inventory.apples inv')%nat ∧
  (Inventory.blueberries inv ≤ Inventory.blueberries inv')%nat.

(** The damage texts among the floating texts. *)
Definition damageTexts (l : list FloatingText.t) : list FloatingText.t :=
  filter (λ text, FloatingText.text text = "-5") l.

(** The snake overlaps the player. *)
Definition touches (p : Player.t) (w h : Q) (snake : Snake.t) : Prop :=
  sqrt_lt (snakeDistance2 p w h snake) (15 + Qmax w h / 2) = true.

#[global] Instance touches_dec p w h snake : Decision (touches p w h snake).
Proof. unfold touches. apply _. Defined.

(** No successful join acknowledgment among the events. *)
Definition isJoin (e : Event) : bool :=
  match e with
  | Receive (join_game_success _ _ _) => true
  | _ => false
  end.

(** The fields owned by the local simulation, and those owned by the
    network reconciler and the camera. *)
Definition simulationFields (s : GameClient) :=
  (playerHealth s, items s, inventory s, lastSnakeDamage s, floatingTexts s,
   (itemSize s, snakes s, snakeWidth s, snakeHeight s)).

Definition storeFields (s : GameClient) :=
  (playerId s, myPlayer s, players s, heap s, avatars s,
   (worldWidth s, worldHeight s, canvas_width s, canvas_height s,
    cameraX s, cameraY s)).

(** Every floating text has a positive remaining lifetime. *)
Definition alive (l : list FloatingText.t) : Prop :=
  Forall (λ text, (0 < FloatingText.life text)%Z) l.

(** Before the first join acknowledgment there is no local id, no local
    player and no floating text. *)
Definition notJoined (s : GameClient) : Prop :=
  playerId s = None ∧ myPlayer s = None ∧ floatingTexts s = [].

(** Every reference to a player object points into the store. *)
Definition wellFormed (s : GameClient) : Prop :=
  (∀ id l, players s !! id = Some l → (l < length (heap s))%nat) ∧
  (∀ l, myPlayer s = Some l → (l < length (heap s))%nat).

(** The camera is the one computed from the current local player. *)
Definition inSync (s : GameClient) : Prop := updateCamera s = s.

(** A floating text as [addFloatingText] makes them, at some point of its
    life: a green "+5" or a red "-5" with 60 frames to live at most. *)
Definition wellFormedText (text : FloatingText.t) : Prop :=
  FloatingText.maxLife text = 60%Z ∧
  FloatingText.velocityY text = -2 ∧
  (0 < FloatingText.life text ≤ 60)%Z ∧
  (FloatingText.text text = "+5" ∧ FloatingText.color text = "#00FF00" ∨
   FloatingText.text text = "-5" ∧ FloatingText.color text = "#FF0000").

(** The item is within pickup distance of the player, for items of the
    given size. *)
Definition inReach (p : Player.t) (size : Q) (item : Item.t) : bool :=
  sqrt_lt (itemDistance2 p (size / 2) item) (15 + size / 2 - size / 2 * 0.1).

(** The item is still to be collected and within pickup distance. *)
Definition pickable (p : Player.t) (size : Q) (item : Item.t) : Prop :=
  Item.collected item = false ∧ inReach p size item = true.

#[global] Instance pickable_dec p size item : Decision (pickable p size item).
Proof. unfold pickable. apply _. Defined.

(** The item with its collected flag set. *)
Definition markCollected (item : Item.t) : Item.t :=
  Item.mk (Item.id item) (Item.type item) (Item.x item) (Item.y item) true.

(** The same item, its collected flag not reset. *)
Definition sameItem (a b : Item.t) : Prop :=
  Item.id b = Item.id a ∧ Item.type b = Item.type a ∧
  Item.x b = Item.x a ∧ Item.y b = Item.y a ∧
  (Item.collected a = true → Item.collected b = true).

(** The floating text that a pickup, or a bite, adds for a player at [p]. *)
Definition healText (p : Player.t) : FloatingText.t :=
  FloatingText.mk (Player.x p) (Player.y p - 30) "+5" "#00FF00" 60 60 (-2).

Definition damageText (p : Player.t) : FloatingText.t :=
  FloatingText.mk (Player.x p) (Player.y p - 30) "-5" "#FF0000" 60 60 (-2).

(** A frame rendered at clock reading [now] falls inside the cooldown
    window that started at [t0]; other events always qualify. *)
Definition withinCooldown (t0 : Z) (e : Event) : Prop :=
  match e with
  | Render now => (now - t0 < 1000)%Z
  | _ => True
  end.

(** The event is not a [player_joined] or a [player_left] that names the
    local id. *)
Definition sparesLocal (s : GameClient) (e : Event) : Prop :=
  match e with
  | Receive (player_joined player _) =>
    Some (Player.playerId player) ≠ playerId s
  | Receive (player_left id) => Some id ≠ playerId s
  | _ => True
  end.

(** The four keys that [handleMovement] looks at. *)
Definition arrowKeys : gset string :=
  {["ArrowUp"; "ArrowDown"; "ArrowLeft"; "ArrowRight"]}.

(** At most one interval is live: the one recorded in [movementInterval],
    repeating the direction resolved last, while the player is moving.  The
    handle in [movementInterval] is one that [setInterval] has returned, so
    it is not 0 and the test [if (this.movementInterval)] sees it.  Every
    call to [socket.send] found the socket open, and the first one sent the
    join request. *)
Definition controlsInvariant (c : Controls) : Prop :=
  (∀ id d, timers c !! id = Some d →
     movementInterval c = Some id ∧ lastDirection c = Some d ∧
     isMoving c = true) ∧
  (isMoving c = true ↔ is_Some (lastDirection c)) ∧
  (∀ id, movementInterval c = Some id → (0 < id < nextTimer c)%nat) ∧
  (0 < nextTimer c)%nat ∧
  Forall (λ call, call.1 = OPEN) (sendCalls c) ∧
  (readyState c = CONNECTING → sendCalls c = []) ∧
  (readyState c = OPEN ∨ sendCalls c ≠ [] →
   ∃ rest, sendCalls c = (OPEN, join_game "Tim") :: rest).

(** The clock readings of [l] are at least 300 ms apart, the first one at
    least 300 ms after [last]. *)
Fixpoint spaced (last : Z) (l : list Z) : Prop :=
  match l with
  | [] => True
  | t :: rest => (300 ≤ t - last)%Z ∧ spaced t rest
  end.

(** The footsteps played so far are at least 300 ms apart, the last one is
    the one recorded in [lastFootstepTime], and there is none without the
    audio set up. *)
Definition footstepsInvariant (a : bool) (c : Controls) : Prop :=
  audio c = a ∧ spaced 0 (footsteps c) ∧
  lastFootstepTime c = default 0%Z (last (footsteps c)) ∧
  (a = false → footsteps c = []).

(** ** Sample inputs *)

(** A player standing at (100, 100). *)
Definition tim : Player.t := {|
  Player.playerId := "p1";
  Player.id := "p1";
  Player.username := "Tim";
  Player.x := 100;
  Player.y := 100;
  Player.facing := south;
  Player.animationFrame := 0;
  Player.avatar := "knight"
|}.

(** Random draws that put the first two snakes at (100, 100) and every
    other snake and every item around the middle of the world. *)
Definition draws (n : nat) : Q :=
  if decide (n = 150%nat ∨ n = 152%nat) then 100 # 2033
  else if decide (n = 151%nat ∨ n = 153%nat) then 100 # 2013
  else 1 # 2.

(** A freshly constructed client in an 800 x 600 window. *)
Definition fresh : GameClient := init 800 600 draws.

(** The join acknowledgment that makes [tim] the local player. *)
Definition joinTim : Message := join_game_success "p1" [("p1", tim)] ∅.

(** The client after the join acknowledgment. *)
Definition joined : GameClient := handleServerMessage joinTim fresh.

(** Random draws that put the first item (an apple) with its corner at
    (95, 95), hence its centre at (105, 105), and everything else around
    the middle of the world. *)
Definition drawsItem (n : nat) : Q :=
  if decide (n = 1%nat ∨ n = 2%nat) then 95 # 2028 else 1 # 2.

(** A client with that item, after the join acknowledgment and one frame. *)
Definition orchard : GameClient :=
  run (init 800 600 drawsItem) [Receive joinTim; Render 5000].

(** The sample clients are only ever evaluated as a whole. *)
#[local] Opaque fresh joined orchard.

(** * Properties *)

(** ** Numbers *)

Lemma Qltb_lt (a b : Q) : Qltb a b = true ↔ a < b.
Proof.
  unfold Qltb. rewrite negb_true_iff, <- not_true_iff_false, Qle_bool_iff.
  split; [apply Qnot_le_lt | apply Qlt_not_le].
Qed.

Lemma Qltb_ge (a b : Q) : Qltb a b = false ↔ b <= a.
Proof.
  unfold Qltb. rewrite negb_false_iff. apply Qle_bool_iff.
Qed.

(** [sqrt_lt a t] decides [Math.sqrt(a) < t] over the reals. *)
Lemma sqrt_lt_spec (a t : Q) :
  0 <= a → (sqrt_lt a t = true ↔ (sqrt (Q2R a) < Q2R t)%R).
Proof.
  intros Ha. apply Qle_Rle in Ha. rewrite RMicromega.Q2R_0 in Ha.
  unfold sqrt_lt. rewrite andb_true_iff, !Qltb_lt. split.
  - intros [Ht Hlt]. apply Qlt_Rlt in Ht, Hlt.
    rewrite RMicromega.Q2R_0 in Ht. rewrite Q2R_mult in Hlt.
    rewrite <- (sqrt_square (Q2R t)) by lra.
    apply sqrt_lt_1_alt. lra.
  - intros Hlt. pose proof (sqrt_pos (Q2R a)) as Hpos.
    split; apply Rlt_Qlt.
    + rewrite RMicromega.Q2R_0. lra.
    + rewrite Q2R_mult. rewrite <- (sqrt_sqrt (Q2R a)) at 1 by lra.
      apply Rmult_le_0_lt_compat; lra.
Qed.

Lemma pow2_nonneg (a : Q) : 0 <= pow2 a.
Proof.
  destruct a as [n d]. unfold pow2, Qle, Qmult. simpl. nia.
Qed.

(** ** Camera *)

Lemma clamp_max_min (lo hi v : Q) :
  lo <= hi → Qmax lo (Qmin v hi) == clamp lo hi v.
Proof.
  intros Hle. unfold clamp.
  destruct (Qltb v lo) eqn:Hlo.
  - apply Qltb_lt in Hlo.
    rewrite (Q.min_l v hi) by (apply Qlt_le_weak; eapply Qlt_le_trans; eauto).
    apply Q.max_l. now apply Qlt_le_weak.
  - apply Qltb_ge in Hlo. destruct (Qltb hi v) eqn:Hhi.
    + apply Qltb_lt in Hhi.
      rewrite (Q.min_r v hi) by now apply Qlt_le_weak.
      now apply Q.max_r.
    + apply Qltb_ge in Hhi. rewrite (Q.min_l v hi) by exact Hhi.
      now apply Q.max_r.
Qed.

Lemma clamp_bounds (lo hi v : Q) :
  lo <= hi → lo <= clamp lo hi v <= hi.
Proof.
  intros Hle. unfold clamp.
  destruct (Qltb v lo) eqn:Hlo; [split; [apply Qle_refl | exact Hle] |].
  apply Qltb_ge in Hlo.
  destruct (Qltb hi v) eqn:Hhi; [split; [exact Hle | apply Qle_refl] |].
  apply Qltb_ge in Hhi. now split.
Qed.

Lemma viewport_gap (viewport world : Q) :
  viewport < world → 0 <= world - viewport.
Proof.
  intros H. apply Qlt_le_weak. unfold Qminus.
  rewrite <- (Qplus_opp_r viewport).
  apply Qplus_lt_le_compat; [exact H | apply Qle_refl].
Qed.

(** C2.  Recomputing the camera for a local player at [p] gives, on each
    axis on its own: when the viewport is strictly smaller than the world,
    the offset (position minus half the viewport) clamped between 0 and
    world minus viewport; otherwise exactly (world minus viewport) / 2,
    whatever the position of the player. *)
Theorem camera_recompute (s : GameClient) (p : Player.t) :
  thePlayer s = Some p →
  let W := worldWidth s in
  let H := worldHeight s in
  let vw := canvas_width s in
  let vh := canvas_height s in
  let s' := updateCamera s in
  (vw < W →
     cameraX s' == clamp 0 (W - vw) (Player.x p - vw / 2) ∧
     0 <= cameraX s' <= W - vw) ∧
  (W <= vw → cameraX s' = (W - vw) / 2) ∧
  (vh < H →
     cameraY s' == clamp 0 (H - vh) (Player.y p - vh / 2) ∧
     0 <= cameraY s' <= H - vh) ∧
  (H <= vh → cameraY s' = (H - vh) / 2).
Proof.
  intros Hp. unfold updateCamera. rewrite Hp. cbn zeta. simpl.
  repeat split.
  - apply Qltb_lt in H. rewrite H. apply clamp_max_min.
    apply viewport_gap, Qltb_lt, H.
  - apply Qltb_lt in H. rewrite H. rewrite clamp_max_min.
    all: try apply clamp_bounds; apply viewport_gap, Qltb_lt, H.
  - apply Qltb_lt in H. rewrite H. rewrite clamp_max_min.
    all: try apply clamp_bounds; apply viewport_gap, Qltb_lt, H.
  - intros Hge. apply Qltb_ge in Hge. now rewrite Hge.
  - apply Qltb_lt in H. rewrite H. apply clamp_max_min.
    apply viewport_gap, Qltb_lt, H.
  - apply Qltb_lt in H. rewrite H. rewrite clamp_max_min.
    all: try apply clamp_bounds; apply viewport_gap, Qltb_lt, H.
  - apply Qltb_lt in H. rewrite H. rewrite clamp_max_min.
    all: try apply clamp_bounds; apply viewport_gap, Qltb_lt, H.
  - intros Hge. apply Qltb_ge in Hge. now rewrite Hge.
Qed.

Lemma thePlayer_joined : thePlayer joined = Some tim.
Proof. vm_compute. reflexivity. Qed.

(** The camera theorem at the sample client: 800 x 600 viewport, player at
    (100, 100) in the 2048 x 2048 world. *)
Lemma camera_recompute_witness :
  0 <= cameraX (updateCamera joined) <= worldWidth joined - canvas_width joined.
Proof.
  destruct (camera_recompute joined tim) as [HX _].
  - vm_compute. reflexivity.
  - apply HX. vm_compute. reflexivity.
Defined.

(** World 2048 x 2048, viewport 800 x 600, player at (50, 50): the camera
    clamps to (0, 0). *)
Example camera_near_corner :
  let p := Player.mk "p1" "p1" "Tim" 50 50 south 0 "knight" in
  let s := handleServerMessage (join_game_success "p1" [("p1", p)] ∅) fresh in
  cameraX s == 0 ∧ cameraY s == 0.
Proof. vm_compute. split; reflexivity. Qed.

(** Viewport 3000 x 3000: the camera is (-476, -476). *)
Example camera_large_viewport :
  let s := onResize 3000 3000 joined in
  cameraX s == -476 ∧ cameraY s == -476.
Proof. vm_compute. split; reflexivity. Qed.

(** ** Frame properties: who writes which fields *)

Lemma updateCamera_simulationFields (s : GameClient) :
  simulationFields (updateCamera s) = simulationFields s.
Proof. unfold updateCamera. now destruct (thePlayer s). Qed.

Lemma movePlayer_simulationFields (s : GameClient) entry :
  simulationFields (movePlayer s entry) = simulationFields s.
Proof.
  destruct entry as [id delta]. unfold movePlayer.
  destruct (players s !! id) as [l|]; [|done].
  destruct (heap s !! l) as [old|]; [|done].
  case_decide; [|done]. now rewrite updateCamera_simulationFields.
Qed.

Lemma handleServerMessage_simulationFields (message : Message) (s : GameClient) :
  simulationFields (handleServerMessage message s) = simulationFields s.
Proof.
  destruct message as [pid ps avs| |pl av|batch| |]; simpl; try done.
  - destruct (storePlayers ps (heap s)) as [m h].
    now rewrite updateCamera_simulationFields.
  - revert s. induction batch as [|entry batch IH]; intros s; [done|].
    simpl. rewrite IH. apply movePlayer_simulationFields.
Qed.

Lemma onResize_simulationFields (w h : Q) (s : GameClient) :
  simulationFields (onResize w h s) = simulationFields s.
Proof. unfold onResize. now rewrite updateCamera_simulationFields. Qed.

Lemma checkItem_storeFields (p : Player.t) (item : Item.t) (s : GameClient) :
  storeFields (checkItem p item s).2 = storeFields s.
Proof.
  unfold checkItem. destruct (Item.collected item); [done|].
  cbn zeta. now destruct (sqrt_lt _ _).
Qed.

Lemma forEachItem_storeFields (p : Player.t) (l : list Item.t) (s : GameClient) :
  storeFields (forEachItem p l s).2 = storeFields s.
Proof.
  revert s. induction l as [|item l IH]; intros s; [done|].
  simpl. pose proof (checkItem_storeFields p item s) as H1.
  destruct (checkItem p item s) as [item' s1]. specialize (IH s1).
  destruct (forEachItem p l s1) as [l' s2]. simpl in *. congruence.
Qed.

Lemma checkItemCollisions_storeFields (s : GameClient) :
  storeFields (checkItemCollisions s) = storeFields s.
Proof.
  unfold checkItemCollisions. destruct (thePlayer s) as [p|]; [|done].
  pose proof (forEachItem_storeFields p (items s) s) as H.
  now destruct (forEachItem p (items s) s).
Qed.

Lemma checkSnake_storeFields (p : Player.t) (t : Z) (s : GameClient) snake :
  storeFields (checkSnake p t s snake) = storeFields s.
Proof. unfold checkSnake. cbn zeta. now destruct (sqrt_lt _ _). Qed.

Lemma checkSnakeCollisions_storeFields (now : Z) (s : GameClient) :
  storeFields (checkSnakeCollisions now s) = storeFields s.
Proof.
  unfold checkSnakeCollisions. destruct (thePlayer s) as [p|]; [|done].
  cbn zeta. destruct (_ <? _)%Z; [done|].
  generalize (snakes s) as l. intros l. revert s.
  induction l as [|snake l IH]; intros s; [done|].
  simpl. rewrite IH. apply checkSnake_storeFields.
Qed.

Lemma render_storeFields (now : Z) (s : GameClient) :
  storeFields (render now s) = storeFields s.
Proof.
  unfold render, updateFloatingTexts.
  rewrite <- (checkItemCollisions_storeFields s).
  now rewrite <- (checkSnakeCollisions_storeFields now (checkItemCollisions s)).
Qed.

(** ** Runs of the event loop *)

Lemma run_nil (s : GameClient) : run s [] = s.
Proof. reflexivity. Qed.

Lemma run_snoc (s : GameClient) (events : list Event) (e : Event) :
  run s (events ++ [e]) = step (run s events) e.
Proof. unfold run. now rewrite foldl_app. Qed.

Lemma run_invariant (I : GameClient → Prop) (s : GameClient) events :
  I s → (∀ s e, I s → I (step s e)) → I (run s events).
Proof.
  intros H0 Hstep. revert s H0.
  induction events as [|e events IH]; intros s H0; [exact H0|].
  simpl. apply IH, Hstep, H0.
Qed.

Lemma reachable_invariant (I : GameClient → Prop) :
  (∀ w h random, I (init w h random)) →
  (∀ s e, I s → I (step s e)) →
  ∀ s, reachable s → I s.
Proof.
  intros Hinit Hstep s (w & h & random & events & ->).
  apply run_invariant; [apply Hinit | exact Hstep].
Qed.

Lemma reachable_init w h random : reachable (init w h random).
Proof. exists w, h, random, []. symmetry. apply run_nil. Qed.

Lemma reachable_run w h random events :
  reachable (run (init w h random) events).
Proof. now exists w, h, random, events. Qed.

Lemma reachable_step (s : GameClient) (e : Event) :
  reachable s → reachable (step s e).
Proof.
  intros (w & h & random & events & ->).
  exists w, h, random, (events ++ [e]). now rewrite run_snoc.
Qed.


Lemma for_loop_invariant {S : Type} (I : S → Prop) n body (s : S) :
  I s → (∀ i s, I s → I (body i s)) → I (for_loop n body s).
Proof.
  intros H0 Hbody. unfold for_loop. generalize (seq 0 n) as l. intros l.
  revert s H0. induction l as [|i l IH]; intros s H0; [exact H0|].
  simpl. apply IH, Hbody, H0.
Qed.

Lemma init_fields w h random :
  let s := init w h random in
  playerHealth s = 100%Z ∧ inventory s = Inventory.mk 0 0 0 ∧
  floatingTexts s = [] ∧ lastSnakeDamage s = 0%Z ∧
  playerId s = None ∧ myPlayer s = None ∧ players s = ∅ ∧ heap s = [].
Proof. vm_compute. repeat split; reflexivity. Qed.

Lemma init_items_uncollected w h random :
  Forall (λ item, Item.collected item = false) (items (init w h random)).
Proof.
  unfold init, spawnSnakes, spawnItems. cbn zeta.
  apply for_loop_invariant; [|intros i s H; exact H].
  apply for_loop_invariant; [constructor|].
  intros i s H. simpl. apply Forall_app. split; [exact H|].
  now repeat constructor.
Qed.

(** ** Floating texts *)

Lemma ageAll_filter (l : list FloatingText.t) :
  ageAll l = filter (λ text, (0 < FloatingText.life text)%Z) (age <$> l).
Proof.
  induction l as [|text l IH]; [done|].
  simpl. rewrite filter_cons. simpl.
  destruct (Z.ltb_spec 0 (FloatingText.life text - 1)); case_decide;
    try lia; now rewrite IH.
Qed.

Lemma ageAll_alive (l : list FloatingText.t) : alive (ageAll l).
Proof.
  rewrite ageAll_filter. apply Forall_forall. intros text Hin.
  now apply list_elem_of_filter in Hin as [H _].
Qed.

(** ** The simulation steps, case by case *)

Lemma checkItem_cases (p : Player.t) (item : Item.t) (s : GameClient) :
  checkItem p item s = (item, s) ∨
  (Item.collected item = false ∧ checkItem p item s = collectItem p item s).
Proof.
  unfold checkItem. destruct (Item.collected item); [now left|].
  cbn zeta. destruct (sqrt_lt _ _); [now right | now left].
Qed.

Lemma checkSnake_cases (p : Player.t) (t : Z) (s : GameClient) snake :
  checkSnake p t s snake = s ∨
  checkSnake p t s snake = with_lastSnakeDamage t (takeSnakeDamage p s).
Proof.
  unfold checkSnake. cbn zeta. destruct (sqrt_lt _ _); [now right | now left].
Qed.

Section SimulationInvariant.
(** A property of the client that does not depend on the items, that
    every pickup and every snake bite preserves, and that ageing the
    floating texts preserves, holds along every run. *)
Variable I : GameClient → Prop.
Hypothesis I_fields :
  ∀ s s', simulationFields s = simulationFields s' → I s → I s'.
Hypothesis I_items : ∀ l s, I s → I (with_items l s).
Hypothesis I_collect : ∀ p item s, I s → I (collectItem p item s).2.
Hypothesis I_damage :
  ∀ p t s, I s → I (with_lastSnakeDamage t (takeSnakeDamage p s)).
Hypothesis I_age : ∀ s, I s → I (updateFloatingTexts s).

Lemma forEachItem_invariant p l s : I s → I (forEachItem p l s).2.
Proof.
  revert s. induction l as [|item l IH]; intros s Hs; [exact Hs|].
  simpl. assert (I (checkItem p item s).2) as H1.
  { destruct (checkItem_cases p item s) as [-> | [_ ->]];
      [exact Hs | now apply I_collect]. }
  destruct (checkItem p item s) as [item' s1]. specialize (IH s1 H1).
  now destruct (forEachItem p l s1).
Qed.

Lemma checkItemCollisions_invariant s : I s → I (checkItemCollisions s).
Proof.
  intros Hs. unfold checkItemCollisions.
  destruct (thePlayer s) as [p|]; [|exact Hs].
  pose proof (forEachItem_invariant p (items s) s Hs) as H.
  destruct (forEachItem p (items s) s). now apply I_items.
Qed.

Lemma checkSnakeCollisions_invariant now s :
  I s → I (checkSnakeCollisions now s).
Proof.
  intros Hs. unfold checkSnakeCollisions.
  destruct (thePlayer s) as [p|]; [|exact Hs].
  cbn zeta. destruct (_ <? _)%Z; [exact Hs|].
  generalize (snakes s) as l. intros l. revert s Hs.
  induction l as [|snake l IH]; intros s Hs; [exact Hs|].
  simpl. apply IH.
  destruct (checkSnake_cases p now s snake) as [-> | ->];
    [exact Hs | now apply I_damage].
Qed.

Lemma step_invariant s e : I s → I (step s e).
Proof.
  intros Hs. destruct e as [now | message | w h]; simpl.
  - apply I_age, checkSnakeCollisions_invariant,
      checkItemCollisions_invariant, Hs.
  - eapply I_fields; [|exact Hs].
    symmetry. apply handleServerMessage_simulationFields.
  - eapply I_fields; [|exact Hs].
    symmetry. apply onResize_simulationFields.
Qed.

Lemma run_simulation_invariant s events : I s → I (run s events).
Proof. intros Hs. apply run_invariant; [exact Hs | apply step_invariant]. Qed.
End SimulationInvariant.

(** ** Floating-text ageing *)

Lemma ageAll_dropped (l : list FloatingText.t) :
  (length (ageAll l) +
   length (filter (λ text, (FloatingText.life (age text) ≤ 0)%Z) l)
   = length l)%nat.
Proof.
  induction l as [|text l IH]; [done|].
  simpl. rewrite filter_cons. simpl in *.
  destruct (Z.ltb_spec 0 (FloatingText.life text - 1)); case_decide;
    try lia; simpl; lia.
Qed.

Lemma alive_survivors (l : list FloatingText.t) :
  alive l →
  filter (λ text, (0 < FloatingText.life text)%Z) (age <$> l) =
  filter (λ text, FloatingText.life text ≠ 0%Z) (age <$> l).
Proof.
  induction 1 as [|text l Hpos _ IH]; [done|].
  rewrite fmap_cons, !filter_cons, IH. simpl.
  repeat case_decide; try done; lia.
Qed.

Lemma alive_dropped (l : list FloatingText.t) :
  alive l →
  filter (λ text, FloatingText.life (age text) = 0%Z) l =
  filter (λ text, (FloatingText.life (age text) ≤ 0)%Z) l.
Proof.
  induction 1 as [|text l Hpos _ IH]; [done|].
  rewrite !filter_cons, IH. simpl.
  repeat case_decide; try done; lia.
Qed.


Example ageAll_sample :
  let text := FloatingText.mk 100 in
  ageAll [text 70 "+5" "#00FF00" 60%Z 60%Z (-2);
          text 40 "-5" "#FF0000" 1%Z 60%Z (-2);
          text 50 "+5" "#00FF00" 2%Z 60%Z (-2)] =
  [text 68 "+5" "#00FF00" 59%Z 60%Z (-2);
   text 48 "+5" "#00FF00" 1%Z 60%Z (-2)].
Proof. reflexivity. Qed.


(** In every state of a run, every floating text is live. *)
Lemma run_alive (s : GameClient) (events : list Event) :
  alive (floatingTexts s) → alive (floatingTexts (run s events)).
Proof.
  apply (run_simulation_invariant (λ s, alive (floatingTexts s))).
  - intros s1 s2 Heq.
    assert (floatingTexts s1 = floatingTexts s2) as ->
      by (unfold simulationFields in Heq; congruence).
    done.
  - done.
  - intros p item s1 H. simpl. apply Forall_app. split; [exact H|].
    now repeat constructor.
  - intros p t s1 H. simpl. apply Forall_app. split; [exact H|].
    now repeat constructor.
  - intros s1 _. apply ageAll_alive.
Qed.

Lemma reachable_alive (s : GameClient) :
  reachable s → alive (floatingTexts s).
Proof.
  intros (w & h & random & events & ->). apply run_alive.
  destruct (init_fields w h random) as (_ & _ & -> & _). constructor.
Qed.

(** ** Health *)

Lemma run_health (s : GameClient) (events : list Event) :
  (0 ≤ playerHealth s ≤ 100)%Z → (0 ≤ playerHealth (run s events) ≤ 100)%Z.
Proof.
  apply (run_simulation_invariant (λ s, (0 ≤ playerHealth s ≤ 100)%Z)).
  - intros s1 s2 Heq.
    assert (playerHealth s1 = playerHealth s2) as ->
      by (unfold simulationFields in Heq; congruence).
    done.
  - done.
  - intros p item s1 H. simpl. lia.
  - intros p t s1 H. simpl. lia.
  - done.
Qed.

Lemma reachable_health (s : GameClient) :
  reachable s → (0 ≤ playerHealth s ≤ 100)%Z.
Proof.
  intros (w & h & random & events & ->).
  apply run_health.
  destruct (init_fields w h random) as (-> & _). lia.
Qed.

(** C3.  From a health between 0 and 100, every mutation of the health
    stays between 0 and 100: collecting an item adds 5 and caps at 100, a
    snake bite subtracts 5 and floors at 0, and no event of the loop
    (frame, message or resize) takes the health out of the range. *)
Theorem health_clamped (s : GameClient) :
  (0 ≤ playerHealth s ≤ 100)%Z →
  (∀ p item,
     let s' := (collectItem p item s).2 in
     playerHealth s' = Z.min 100 (playerHealth s + 5) ∧
     (0 ≤ playerHealth s' ≤ 100)%Z) ∧
  (∀ p,
     let s' := takeSnakeDamage p s in
     playerHealth s' = Z.max 0 (playerHealth s - 5) ∧
     (0 ≤ playerHealth s' ≤ 100)%Z) ∧
  (∀ events, (0 ≤ playerHealth (run s events) ≤ 100)%Z).
Proof.
  intros Hs. split; [|split].
  - intros p item. simpl. lia.
  - intros p. simpl. lia.
  - intros events. now apply run_health.
Qed.

(** The health theorem on the freshly joined client (health 100). *)
Lemma health_clamped_witness :
  (0 ≤ playerHealth (run joined [Render 5000; Render 5016]) ≤ 100)%Z.
Proof.
  assert (0 ≤ playerHealth joined ≤ 100)%Z as H by (vm_compute; split; discriminate).
  destruct (health_clamped joined H) as (_ & _ & Hrun). apply Hrun.
Defined.


(** ** Items and inventory *)

Lemma forEachItem_cons (p : Player.t) item l (s : GameClient) :
  forEachItem p (item :: l) s =
  ((checkItem p item s).1 :: (forEachItem p l (checkItem p item s).2).1,
   (forEachItem p l (checkItem p item s).2).2).
Proof.
  simpl. destruct (checkItem p item s) as [item' s1]. simpl.
  now destruct (forEachItem p l s1).
Qed.

Lemma checkItem_collected (p : Player.t) (item : Item.t) (s : GameClient) :
  Item.collected item = true → checkItem p item s = (item, s).
Proof. intros H. unfold checkItem. now rewrite H. Qed.

Lemma forEachItem_length (p : Player.t) l (s : GameClient) :
  length (forEachItem p l s).1 = length l.
Proof.
  revert s. induction l as [|item l IH]; intros s; [done|].
  rewrite forEachItem_cons. simpl. now rewrite IH.
Qed.

Lemma forEachItem_collected_kept (p : Player.t) l (s : GameClient) i item :
  l !! i = Some item → Item.collected item = true →
  (forEachItem p l s).1 !! i = Some item.
Proof.
  revert s i. induction l as [|item0 l IH]; intros s i Hi Hc; [done|].
  rewrite forEachItem_cons. destruct i as [|i]; simpl in *.
  - injection Hi as ->. now rewrite checkItem_collected.
  - now apply IH.
Qed.

(** A collected item has no part in the pass: the client ends up as if the
    item were not in the array. *)
Lemma forEachItem_collected_skipped (p : Player.t) l1 item l2 (s : GameClient) :
  Item.collected item = true →
  (forEachItem p (l1 ++ item :: l2) s).2 = (forEachItem p (l1 ++ l2) s).2.
Proof.
  intros Hc. revert s. induction l1 as [|item1 l1 IH]; intros s.
  - simpl app. rewrite forEachItem_cons. simpl.
    now rewrite checkItem_collected.
  - simpl app. rewrite !forEachItem_cons. simpl. apply IH.
Qed.

Lemma inventoryTotal_increment (type : ItemType) (inv : Inventory.t) :
  inventoryTotal (increment type inv) = S (inventoryTotal inv).
Proof. destruct type; unfold inventoryTotal; simpl; lia. Qed.

Lemma inventory_le_increment (type : ItemType) (inv : Inventory.t) :
  inventory_le inv (increment type inv).
Proof. destruct type; unfold inventory_le; simpl; lia. Qed.

Lemma inventory_le_refl (inv : Inventory.t) : inventory_le inv inv.
Proof. unfold inventory_le. lia. Qed.

Lemma inventory_le_trans (a b c : Inventory.t) :
  inventory_le a b → inventory_le b c → inventory_le a c.
Proof. unfold inventory_le. lia. Qed.

Lemma collectedCount_cons (item : Item.t) l :
  collectedCount (item :: l) =
  ((if Item.collected item then 1 else 0) + collectedCount l)%nat.
Proof.
  unfold collectedCount. rewrite filter_cons.
  destruct (Item.collected item); case_decide; done.
Qed.

(** Over one pass, the inventory total grows by the number of items that
    became collected. *)
Lemma forEachItem_total (p : Player.t) l (s : GameClient) :
  (inventoryTotal (inventory (forEachItem p l s).2) + collectedCount l =
   inventoryTotal (inventory s) + collectedCount (forEachItem p l s).1)%nat.
Proof.
  revert s. induction l as [|item l IH]; intros s; [simpl; lia|].
  rewrite forEachItem_cons. simpl. rewrite !collectedCount_cons.
  specialize (IH (checkItem p item s).2).
  destruct (checkItem_cases p item s) as [Heq | [Hunc Heq]];
    rewrite Heq in *; simpl in *.
  - lia.
  - rewrite Hunc. rewrite inventoryTotal_increment in IH. lia.
Qed.

Lemma forEachItem_inventory_le (p : Player.t) l (s : GameClient) :
  inventory_le (inventory s) (inventory (forEachItem p l s).2).
Proof.
  apply (forEachItem_invariant (λ s', inventory_le (inventory s) (inventory s'))).
  - intros p0 item s1 H. simpl.
    eapply inventory_le_trans; [exact H | apply inventory_le_increment].
  - apply inventory_le_refl.
Qed.

Lemma checkSnakeCollisions_items now (s : GameClient) :
  items (checkSnakeCollisions now s) = items s ∧
  inventory (checkSnakeCollisions now s) = inventory s.
Proof.
  now apply (checkSnakeCollisions_invariant
           (λ s', items s' = items s ∧ inventory s' = inventory s)).
Qed.

Lemma render_items now (s : GameClient) :
  items (render now s) = items (checkItemCollisions s) ∧
  inventory (render now s) = inventory (checkItemCollisions s).
Proof. unfold render. simpl. apply checkSnakeCollisions_items. Qed.

Lemma checkItemCollisions_items (s : GameClient) :
  length (items (checkItemCollisions s)) = length (items s) ∧
  (∀ i item, items s !! i = Some item → Item.collected item = true →
     items (checkItemCollisions s) !! i = Some item) ∧
  (inventoryTotal (inventory (checkItemCollisions s)) + collectedCount (items s) =
   inventoryTotal (inventory s) + collectedCount (items (checkItemCollisions s)))%nat ∧
  inventory_le (inventory s) (inventory (checkItemCollisions s)).
Proof.
  unfold checkItemCollisions. destruct (thePlayer s) as [p|].
  - pose proof (forEachItem_length p (items s) s) as H1.
    pose proof (forEachItem_collected_kept p (items s) s) as H2.
    pose proof (forEachItem_total p (items s) s) as H3.
    pose proof (forEachItem_inventory_le p (items s) s) as H4.
    destruct (forEachItem p (items s) s) as [l s']. simpl in *.
    repeat split; try done. apply H4. apply H4. apply H4.
  - repeat split; try done; try lia; apply inventory_le_refl.
Qed.

Lemma step_items (s : GameClient) (e : Event) :
  length (items (step s e)) = length (items s) ∧
  (∀ i item, items s !! i = Some item → Item.collected item = true →
     items (step s e) !! i = Some item) ∧
  (inventoryTotal (inventory (step s e)) + collectedCount (items s) =
   inventoryTotal (inventory s) + collectedCount (items (step s e)))%nat ∧
  inventory_le (inventory s) (inventory (step s e)).
Proof.
  destruct e as [now | message | w h]; unfold step.
  - destruct (render_items now s) as [-> ->]. apply checkItemCollisions_items.
  - pose proof (handleServerMessage_simulationFields message s) as Heq.
    unfold simulationFields in Heq.
    assert (items (handleServerMessage message s) = items s) as -> by congruence.
    assert (inventory (handleServerMessage message s) = inventory s) as ->
      by congruence.
    repeat split; try done; try lia; apply inventory_le_refl.
  - pose proof (onResize_simulationFields w h s) as Heq.
    unfold simulationFields in Heq.
    assert (items (onResize w h s) = items s) as -> by congruence.
    assert (inventory (onResize w h s) = inventory s) as -> by congruence.
    repeat split; try done; try lia; apply inventory_le_refl.
Qed.

Lemma run_items (s : GameClient) (events : list Event) :
  length (items (run s events)) = length (items s) ∧
  (∀ i item, items s !! i = Some item → Item.collected item = true →
     items (run s events) !! i = Some item) ∧
  (inventoryTotal (inventory (run s events)) + collectedCount (items s) =
   inventoryTotal (inventory s) + collectedCount (items (run s events)))%nat ∧
  inventory_le (inventory s) (inventory (run s events)).
Proof.
  revert s. induction events as [|e events IH]; intros s.
  - simpl. repeat split; try done; try lia; apply inventory_le_refl.
  - simpl. destruct (step_items s e) as (H1 & H2 & H3 & H4).
    destruct (IH (step s e)) as (K1 & K2 & K3 & K4).
    split; [congruence|]. split; [|split].
    + intros i item Hi Hc. apply K2; [|exact Hc]. now apply H2.
    + unfold run in *. lia.
    + eapply inventory_le_trans; [exact H4 | exact K4].
Qed.

Lemma collectedCount_uncollected (l : list Item.t) :
  Forall (λ item, Item.collected item = false) l → collectedCount l = 0%nat.
Proof.
  induction 1 as [|item l Hunc _ IH]; [done|].
  rewrite collectedCount_cons, Hunc, IH. done.
Qed.

Lemma reachable_total (s : GameClient) :
  reachable s → inventoryTotal (inventory s) = collectedCount (items s).
Proof.
  intros (w & h & random & events & ->).
  destruct (run_items (init w h random) events) as (_ & _ & Htotal & _).
  rewrite (collectedCount_uncollected (items (init w h random)))
    in Htotal by apply init_items_uncollected.
  destruct (init_fields w h random) as (_ & Hinv & _).
  rewrite Hinv in Htotal. unfold inventoryTotal in *. simpl in Htotal. lia.
Qed.

Lemma inventory_le_total (a b : Inventory.t) :
  inventory_le a b → inventoryTotal a = inventoryTotal b → a = b.
Proof.
  destruct a, b. unfold inventory_le, inventoryTotal. simpl.
  intros (? & ? & ?) ?. f_equal; lia.
Qed.

(** C10.  In every reachable state the three inventory counters add up to
    the number of collected items.  No counter ever decreases.  A pickup
    increments the counter of the item's type by exactly 1 and leaves the
    other two alone.  Nothing else changes the inventory: an event that
    collects no item leaves the inventory as it is. *)
Theorem inventory_counts_collected (s : GameClient) :
  reachable s →
  inventoryTotal (inventory s) = collectedCount (items s) ∧
  (∀ events, inventory_le (inventory s) (inventory (run s events))) ∧
  (∀ p item,
     let inv := inventory s in
     let inv' := inventory (collectItem p item s).2 in
     inventoryTotal inv' = S (inventoryTotal inv) ∧
     match Item.type item with
     | banana =>
       Inventory.bananas inv' = S (Inventory.bananas inv) ∧
       Inventory.apples inv' = Inventory.apples inv ∧
       Inventory.blueberries inv' = Inventory.blueberries inv
     | apple =>
       Inventory.bananas inv' = Inventory.bananas inv ∧
       Inventory.apples inv' = S (Inventory.apples inv) ∧
       Inventory.blueberries inv' = Inventory.blueberries inv
     | blueberry =>
       Inventory.bananas inv' = Inventory.bananas inv ∧
       Inventory.apples inv' = Inventory.apples inv ∧
       Inventory.blueberries inv' = S (Inventory.blueberries inv)
     end) ∧
  (∀ e,
     collectedCount (items (step s e)) = collectedCount (items s) →
     inventory (step s e) = inventory s).
Proof.
  intros Hs. split; [now apply reachable_total|]. split; [|split].
  - intros events. apply run_items.
  - intros p item. cbn zeta. simpl.
    split; [apply inventoryTotal_increment|].
    now destruct (Item.type item).
  - intros e Hcount. symmetry.
    destruct (step_items s e) as (_ & _ & Htotal & Hle).
    apply inventory_le_total; [exact Hle | lia].
Qed.

Lemma reachable_orchard : reachable orchard.
Proof.
  exact (reachable_run 800 600 drawsItem [Receive joinTim; Render 5000]).
Qed.

(** The inventory theorem on the sample client that has just picked up its
    first item: one apple, and one collected item. *)
Lemma inventory_counts_collected_witness :
  inventoryTotal (inventory orchard) = collectedCount (items orchard) ∧
  inventory orchard = Inventory.mk 0 1 0.
Proof.
  split.
  - destruct (inventory_counts_collected orchard reachable_orchard) as [H _].
    exact H.
  - vm_compute. reflexivity.
Defined.

(** C4.  An item whose collected flag is set is never picked up again: the
    pickup check returns it and the client unchanged (no counter is
    incremented, no heal, no floating text), a pass over the items ends in
    the state it would end in without that item, and along every run the
    item stays where it is in the item array, which never shrinks. *)
Theorem pickup_idempotent (s : GameClient) (i : nat) (item : Item.t) :
  items s !! i = Some item →
  Item.collected item = true →
  (∀ p s', checkItem p item s' = (item, s')) ∧
  (∀ p l1 l2 s',
     (forEachItem p (l1 ++ item :: l2) s').2 =
     (forEachItem p (l1 ++ l2) s').2) ∧
  (∀ events,
     items (run s events) !! i = Some item ∧
     length (items (run s events)) = length (items s)).
Proof.
  intros Hi Hc. split; [|split].
  - intros p s'. now apply checkItem_collected.
  - intros p l1 l2 s'. now apply forEachItem_collected_skipped.
  - intros events. destruct (run_items s events) as (Hlen & Hkept & _).
    split; [now apply Hkept | exact Hlen].
Qed.

(** The theorem on the sample client, whose first item is collected: two
    more frames leave that item in place. *)
Lemma pickup_idempotent_witness :
  ∃ item,
    items orchard !! 0%nat = Some item ∧
    items (run orchard [Render 5016; Render 5032]) !! 0%nat = Some item.
Proof.
  assert (∃ item, items orchard !! 0%nat = Some item ∧
                  Item.collected item = true) as (item & Hi & Hc).
  { vm_compute. eexists. split; reflexivity. }
  destruct (pickup_idempotent orchard 0 item Hi Hc) as (_ & _ & Hrun).
  exists item. split; [exact Hi | apply Hrun].
Defined.

(** ** The pickup condition *)

Lemma itemDistance2_nonneg (p : Player.t) (r : Q) (item : Item.t) :
  0 <= itemDistance2 p r item.
Proof.
  unfold itemDistance2.
  apply (Qplus_le_compat 0 _ 0 _); apply pow2_nonneg.
Qed.

Lemma Q2R_half (a : Q) : Q2R (a / 2) = (Q2R a / 2)%R.
Proof.
  unfold Qdiv. rewrite Q2R_mult. unfold Rdiv. f_equal.
  unfold Q2R. simpl. lra.
Qed.



(** ** Snake damage and its cooldown *)

(** Inside the cooldown window the check does nothing. *)
Lemma checkSnakeCollisions_cooldown (now : Z) (s : GameClient) :
  (now - lastSnakeDamage s < 1000)%Z → checkSnakeCollisions now s = s.
Proof.
  intros H. unfold checkSnakeCollisions. destruct (thePlayer s); [|done].
  cbn zeta. apply Z.ltb_lt in H. now rewrite H.
Qed.

Lemma checkSnakes_stamp (p : Player.t) (t : Z) l (s0 s : GameClient) :
  playerHealth s0 = playerHealth s ∧ floatingTexts s0 = floatingTexts s ∨
  lastSnakeDamage s0 = t →
  playerHealth (foldl (checkSnake p t) s0 l) = playerHealth s ∧
  floatingTexts (foldl (checkSnake p t) s0 l) = floatingTexts s ∨
  lastSnakeDamage (foldl (checkSnake p t) s0 l) = t.
Proof.
  revert s0. induction l as [|snake l IH]; intros s0 H; [exact H|].
  simpl. apply IH.
  destruct (checkSnake_cases p t s0 snake) as [-> | ->]; [exact H|].
  now right.
Qed.

(** A check either bites nobody or restarts the cooldown at [now]. *)
Lemma checkSnakeCollisions_stamp (now : Z) (s : GameClient) :
  playerHealth (checkSnakeCollisions now s) = playerHealth s ∧
  floatingTexts (checkSnakeCollisions now s) = floatingTexts s ∨
  lastSnakeDamage (checkSnakeCollisions now s) = now.
Proof.
  unfold checkSnakeCollisions. destruct (thePlayer s) as [p|]; [|now left].
  cbn zeta. destruct (_ <? _)%Z; [now left|].
  apply checkSnakes_stamp. now left.
Qed.

Lemma checkSnake_fields (p : Player.t) (t : Z) (s : GameClient) snake :
  snakeWidth (checkSnake p t s snake) = snakeWidth s ∧
  snakeHeight (checkSnake p t s snake) = snakeHeight s.
Proof. now destruct (checkSnake_cases p t s snake) as [-> | ->]. Qed.

Lemma checkSnake_touch (p : Player.t) (t : Z) (s : GameClient) snake :
  touches p (snakeWidth s) (snakeHeight s) snake →
  checkSnake p t s snake = with_lastSnakeDamage t (takeSnakeDamage p s).
Proof. unfold touches, checkSnake. cbn zeta. now intros ->. Qed.

Lemma checkSnake_miss (p : Player.t) (t : Z) (s : GameClient) snake :
  ¬ touches p (snakeWidth s) (snakeHeight s) snake →
  checkSnake p t s snake = s.
Proof.
  unfold touches, checkSnake. cbn zeta. now destruct (sqrt_lt _ _).
Qed.

(** Once the cooldown has elapsed, one check adds one damage text for each
    snake that overlaps the player. *)
Lemma checkSnakes_damageTexts (p : Player.t) (t : Z) l (s : GameClient) :
  length (damageTexts (floatingTexts (foldl (checkSnake p t) s l))) =
  (length (damageTexts (floatingTexts s)) +
   length (filter (touches p (snakeWidth s) (snakeHeight s)) l))%nat.
Proof.
  revert s. induction l as [|snake l IH]; intros s; [simpl; lia|].
  simpl. rewrite IH. destruct (checkSnake_fields p t s snake) as [-> ->].
  rewrite filter_cons. case_decide as Htouch.
  - rewrite checkSnake_touch by exact Htouch. simpl.
    unfold damageTexts. rewrite filter_app, length_app. simpl. lia.
  - now rewrite checkSnake_miss by exact Htouch.
Qed.

(** C1.  The cooldown of 1000 ms is tested once per frame, before the loop
    over the snakes, and not once per bite: on the sample client, whose
    player at (100, 100) overlaps two snakes, the single frame at clock
    reading 5000 applies the damage twice (health 100 to 90, two "-5"
    texts), although at most one damage event is due per cooldown window. *)
Theorem snake_damage_twice_in_one_frame :
  let s := render 5000 joined in
  playerHealth joined = 100%Z ∧
  damageTexts (floatingTexts joined) = [] ∧
  length (filter (touches tim (snakeWidth joined) (snakeHeight joined))
            (snakes joined)) = 2%nat ∧
  playerHealth s = 90%Z ∧
  length (damageTexts (floatingTexts s)) = 2%nat ∧
  lastSnakeDamage s = 5000%Z.
Proof. vm_compute. repeat split; reflexivity. Qed.

(** ** A frame without a local player *)

Lemma thePlayer_unset (s : GameClient) : myPlayer s = None → thePlayer s = None.
Proof. unfold thePlayer. now intros ->. Qed.

Lemma with_floatingTexts_id (s : GameClient) :
  with_floatingTexts (floatingTexts s) s = s.
Proof. now destruct s. Qed.

Lemma render_unset (now : Z) (s : GameClient) :
  myPlayer s = None → render now s = updateFloatingTexts s.
Proof.
  intros H. apply thePlayer_unset in H. unfold render.
  unfold checkItemCollisions. rewrite H.
  unfold checkSnakeCollisions. now rewrite H.
Qed.

Lemma updateCamera_unset (s : GameClient) :
  myPlayer s = None → updateCamera s = s.
Proof. intros H. unfold updateCamera. now rewrite thePlayer_unset. Qed.

Lemma movePlayer_notJoined (s : GameClient) entry :
  notJoined s → notJoined (movePlayer s entry).
Proof.
  intros (Hid & Hmy & Htexts). destruct entry as [id delta]. unfold movePlayer.
  destruct (players s !! id) as [l|]; [|done].
  destruct (heap s !! l) as [old|]; [|done].
  case_decide as Heq; [|done]. simpl in Heq. congruence.
Qed.

Lemma step_notJoined (s : GameClient) (e : Event) :
  isJoin e = false → notJoined s → notJoined (step s e).
Proof.
  intros He Hs. destruct e as [now | message | w h]; simpl.
  - destruct Hs as (Hid & Hmy & Htexts).
    change (notJoined (render now s)). rewrite render_unset by exact Hmy.
    unfold updateFloatingTexts. rewrite Htexts. simpl. now split.
  - destruct message as [pid ps avs| |pl av|batch| |]; simpl; try done.
    clear He. revert s Hs.
    induction batch as [|entry batch IH]; intros s Hs; [done|].
    simpl. apply IH. now apply movePlayer_notJoined.
  - unfold onResize. destruct Hs as (Hid & Hmy & Htexts).
    rewrite updateCamera_unset by exact Hmy. now split.
Qed.

Lemma run_notJoined (s : GameClient) (events : list Event) :
  forallb (λ e, negb (isJoin e)) events = true →
  notJoined s → notJoined (run s events).
Proof.
  revert s. induction events as [|e events IH]; intros s He Hs; [exact Hs|].
  simpl in He. apply andb_true_iff in He as [He Hrest].
  simpl. apply IH; [exact Hrest|].
  apply step_notJoined; [|exact Hs]. now apply negb_true_iff.
Qed.




(** ** The player collection *)

Lemma updateCamera_storeFields (s : GameClient) :
  playerId (updateCamera s) = playerId s ∧
  myPlayer (updateCamera s) = myPlayer s ∧
  players (updateCamera s) = players s ∧
  heap (updateCamera s) = heap s.
Proof. unfold updateCamera. now destruct (thePlayer s). Qed.

Lemma aliased_updateCamera (s : GameClient) :
  aliased s → aliased (updateCamera s).
Proof.
  unfold aliased.
  destruct (updateCamera_storeFields s) as (-> & -> & -> & _). done.
Qed.

Lemma movePlayer_absent (s : GameClient) id delta :
  players s !! id = None → movePlayer s (id, delta) = s.
Proof. intros H. unfold movePlayer. now rewrite H. Qed.

Lemma movePlayer_playerId (s : GameClient) entry :
  playerId (movePlayer s entry) = playerId s.
Proof.
  destruct entry as [id delta]. unfold movePlayer.
  destruct (players s !! id) as [l|]; [|done].
  destruct (heap s !! l) as [old|]; [|done].
  case_decide; [|done].
  match goal with |- playerId (updateCamera ?s0) = _ =>
    destruct (updateCamera_storeFields s0) as (-> & _) end.
  done.
Qed.

Lemma movePlayer_other (s : GameClient) id delta id' :
  id' ≠ id → players (movePlayer s (id, delta)) !! id' = players s !! id'.
Proof.
  intros Hne. unfold movePlayer.
  destruct (players s !! id) as [l|]; [|done].
  destruct (heap s !! l) as [old|]; [|done].
  case_decide.
  - match goal with |- players (updateCamera ?s0) !! _ = _ =>
      destruct (updateCamera_storeFields s0) as (_ & _ & -> & _) end.
    simpl. now rewrite lookup_insert_ne.
  - simpl. now rewrite lookup_insert_ne.
Qed.

Lemma movePlayer_present (s : GameClient) id delta l old :
  players s !! id = Some l → heap s !! l = Some old →
  players (movePlayer s (id, delta)) !! id = Some (length (heap s)) ∧
  heap (movePlayer s (id, delta)) = heap s ++ [spread old delta].
Proof.
  intros Hl Hold. unfold movePlayer. rewrite Hl, Hold.
  case_decide.
  - match goal with |- players (updateCamera ?s0) !! _ = _ ∧ _ =>
      destruct (updateCamera_storeFields s0) as (_ & _ & -> & ->) end.
    simpl. now rewrite lookup_insert_eq.
  - simpl. now rewrite lookup_insert_eq.
Qed.

(** Player objects are never mutated: the store only grows. *)
Lemma movePlayer_heap (s : GameClient) entry l old :
  heap s !! l = Some old → heap (movePlayer s entry) !! l = Some old.
Proof.
  intros Hold. destruct entry as [id delta].
  destruct (players s !! id) as [l0|] eqn:Hl0;
    [|now rewrite movePlayer_absent].
  destruct (heap s !! l0) as [old0|] eqn:Hold0.
  - destruct (movePlayer_present s id delta l0 old0 Hl0 Hold0) as [_ ->].
    now apply lookup_app_l_Some.
  - unfold movePlayer. now rewrite Hl0, Hold0.
Qed.

Lemma movePlayer_aliased (s : GameClient) entry :
  aliased s → aliased (movePlayer s entry).
Proof.
  intros Hs. destruct entry as [id delta]. unfold movePlayer.
  destruct (players s !! id) as [l|]; [|done].
  destruct (heap s !! l) as [old|]; [|done].
  case_decide as Hid; simpl in Hid.
  - apply aliased_updateCamera. intros l' Hl'. simpl in *.
    exists id. now split.
  - intros l' Hl'. simpl in *. destruct (Hs l' Hl') as (id0 & Hid0 & Hl0).
    exists id0. split; [exact Hid0|].
    rewrite lookup_insert_ne; [exact Hl0 | congruence].
Qed.

(** Every message other than a [player_joined] or a [player_left] that
    names the local id keeps the local record aliased. *)
Lemma handleServerMessage_aliased (message : Message) (s : GameClient) :
  match message with
  | player_joined player _ => Some (Player.playerId player) ≠ playerId s
  | player_left id => Some id ≠ playerId s
  | _ => True
  end →
  aliased s → aliased (handleServerMessage message s).
Proof.
  intros Hm Hs.
  destruct message as [pid ps avs| |pl av|batch|id|]; simpl; try done.
  - destruct (storePlayers ps (heap s)) as [m h].
    apply aliased_updateCamera. intros l Hl. simpl in *.
    exists pid. now split.
  - intros l Hl. simpl in *. destruct (Hs l Hl) as (id0 & Hid0 & Hl0).
    exists id0. split; [exact Hid0|].
    rewrite lookup_insert_ne; [exact Hl0 | congruence].
  - clear Hm. revert s Hs.
    induction batch as [|entry batch IH]; intros s Hs; [done|].
    simpl. apply IH. now apply movePlayer_aliased.
  - intros l Hl. simpl in *. destruct (Hs l Hl) as (id0 & Hid0 & Hl0).
    exists id0. split; [exact Hid0|].
    rewrite lookup_delete_ne; [exact Hl0 | congruence].
Qed.

Lemma player_left_fields id (s : GameClient) :
  playerId (handleServerMessage (player_left id) s) = playerId s ∧
  myPlayer (handleServerMessage (player_left id) s) = myPlayer s ∧
  players (handleServerMessage (player_left id) s) = delete id (players s).
Proof. done. Qed.

Lemma player_joined_fields player avatar (s : GameClient) :
  playerId (handleServerMessage (player_joined player avatar) s) = playerId s ∧
  myPlayer (handleServerMessage (player_joined player avatar) s) = myPlayer s ∧
  players (handleServerMessage (player_joined player avatar) s) =
    <[Player.playerId player := length (heap s)]> (players s).
Proof. done. Qed.

(** A [player_left] that names the local id leaves [myPlayer] dangling. *)
Lemma player_left_local (s : GameClient) id l :
  playerId s = Some id → myPlayer s = Some l →
  ¬ aliased (handleServerMessage (player_left id) s).
Proof.
  intros Hid Hmy Halias.
  destruct (player_left_fields id s) as (E1 & E2 & E3).
  destruct (Halias l) as (id' & Hid' & Hl); [congruence|].
  rewrite E1, Hid in Hid'. injection Hid' as <-.
  rewrite E3, lookup_delete_eq in Hl. discriminate Hl.
Qed.

(** A [player_joined] that names the local id replaces the entry of the
    collection by a new object, and [myPlayer] keeps the old one. *)
Lemma player_joined_local (s : GameClient) player avatar id l :
  playerId s = Some id → Player.playerId player = id →
  myPlayer s = Some l → (l < length (heap s))%nat →
  ¬ aliased (handleServerMessage (player_joined player avatar) s).
Proof.
  intros Hid Hkey Hmy Hlt Halias.
  destruct (player_joined_fields player avatar s) as (E1 & E2 & E3).
  destruct (Halias l) as (id' & Hid' & Hl); [congruence|].
  rewrite E1, Hid in Hid'. injection Hid' as <-.
  rewrite E3, Hkey, lookup_insert_eq in Hl. injection Hl as Hl. lia.
Qed.

(** C7.  The local record is not kept aliased by every handler.  On the
    sample client, after the join acknowledgment [myPlayer] is the object
    stored under the local id "p1"; a [player_left] for "p1" removes the
    entry while [myPlayer] still designates the removed object, and a
    [player_joined] for "p1" stores a new object under "p1" while
    [myPlayer] still designates the old one.  The collection itself maps
    each id to at most one player. *)
Theorem local_player_alias_broken :
  let left := handleServerMessage (player_left "p1") joined in
  let again := handleServerMessage (player_joined tim (Avatar.mk "knight" [] [] [])) joined in
  (myPlayer joined = Some 0%nat ∧ players joined !! "p1" = Some 0%nat) ∧
  (playerId left = Some "p1" ∧ myPlayer left = Some 0%nat ∧
   players left !! "p1" = None ∧ ¬ aliased left) ∧
  (playerId again = Some "p1" ∧ myPlayer again = Some 0%nat ∧
   players again !! "p1" = Some 1%nat ∧ ¬ aliased again).
Proof.
  cbn zeta.
  assert (playerId joined = Some "p1" ∧ myPlayer joined = Some 0%nat ∧
          players joined !! "p1" = Some 0%nat ∧ length (heap joined) = 1%nat)
    as (Hid & Hmy & Hp & Hlen)
    by (vm_compute; repeat split; reflexivity).
  split; [now split|]. split.
  - destruct (player_left_fields "p1" joined) as (-> & -> & Hplayers).
    split; [exact Hid|]. split; [exact Hmy|].
    split; [rewrite Hplayers; apply lookup_delete_eq|].
    now apply (player_left_local joined "p1" 0%nat).
  - destruct (player_joined_fields tim (Avatar.mk "knight" [] [] []) joined)
      as (-> & -> & Hplayers).
    split; [exact Hid|]. split; [exact Hmy|].
    split; [rewrite Hplayers, Hlen; apply lookup_insert_eq|].
    apply (player_joined_local joined tim _ "p1" 0%nat); try done.
    rewrite Hlen. lia.
Qed.

(** ** Movement batches *)

Lemma spread_merged (old : Player.t) (delta : PlayerDelta.t) :
  merged old delta (spread old delta).
Proof.
  destruct delta as [[?|] [?|] [?|] [?|] [?|] [?|] [?|] [?|]];
    repeat split; reflexivity.
Qed.

(** Entries for other ids do not touch the entry of [id]. *)
Lemma movePlayers_other (s : GameClient) batch id :
  id ∉ batch.*1 → players (foldl movePlayer s batch) !! id = players s !! id.
Proof.
  revert s. induction batch as [|[k d] batch IH]; intros s Hnot; [done|].
  rewrite fmap_cons in Hnot. cbn [fst] in Hnot. cbn [foldl].
  apply not_elem_of_cons in Hnot as [Hne Hnot].
  rewrite IH by exact Hnot. now apply movePlayer_other.
Qed.

Lemma movePlayers_heap (s : GameClient) batch l old :
  heap s !! l = Some old → heap (foldl movePlayer s batch) !! l = Some old.
Proof.
  revert s. induction batch as [|entry batch IH]; intros s Hold; [done|].
  simpl. apply IH. now apply movePlayer_heap.
Qed.

(** Entries for an id that is not in the collection are skipped. *)
Lemma movePlayers_absent (s : GameClient) batch id :
  players s !! id = None →
  players (foldl movePlayer s batch) !! id = None ∧
  foldl movePlayer s batch =
  foldl movePlayer s (filter (λ entry, entry.1 ≠ id) batch).
Proof.
  revert s. induction batch as [|[k d] batch IH]; intros s Hnone; [done|].
  cbn [foldl]. rewrite filter_cons. cbn [fst]. case_decide as Hk.
  - cbn [foldl]. apply IH. now rewrite movePlayer_other.
  - subst k.
    rewrite movePlayer_absent by exact Hnone. now apply IH.
Qed.

Lemma movePlayers_present (s : GameClient) batch id delta l old :
  NoDup batch.*1 → (id, delta) ∈ batch →
  players s !! id = Some l → heap s !! l = Some old →
  ∃ l', players (foldl movePlayer s batch) !! id = Some l' ∧
        heap (foldl movePlayer s batch) !! l' = Some (spread old delta).
Proof.
  revert s. induction batch as [|[k d] batch IH]; intros s Hnodup Hin Hl Hold.
  - now apply elem_of_nil in Hin.
  - rewrite fmap_cons in Hnodup. cbn [fst] in Hnodup. cbn [foldl].
    apply NoDup_cons in Hnodup as [Hk Hnodup].
    apply elem_of_cons in Hin as [Heq | Hin].
    + injection Heq as <- <-.
      destruct (movePlayer_present s id delta l old Hl Hold) as [Hl' Hheap].
      exists (length (heap s)). split.
      * rewrite movePlayers_other by exact Hk. exact Hl'.
      * apply movePlayers_heap. rewrite Hheap.
        rewrite lookup_app_r by lia. now rewrite Nat.sub_diag.
    + assert (k ≠ id) as Hne.
      { intros ->. apply Hk. apply list_elem_of_fmap. now exists (id, delta). }
      apply IH; try done.
      * now rewrite movePlayer_other.
      * now apply movePlayer_heap.
Qed.



(** ** References into the store are never dangling *)

Lemma storePlayers_wellFormed entries (h : list Player.t) id l :
  (storePlayers entries h).1 !! id = Some l →
  (l < length (storePlayers entries h).2)%nat.
Proof.
  unfold storePlayers.
  assert (∀ id l, (∅ : gmap string loc, h).1 !! id = Some l →
                  (l < length (∅ : gmap string loc, h).2)%nat) as H0.
  { intros id0 l0 H. simpl in H. now rewrite lookup_empty in H. }
  revert H0. generalize (∅ : gmap string loc, h) as acc. intros acc H0.
  revert acc H0 id l.
  induction entries as [|entry entries IH]; intros acc H0 id l; [apply H0|].
  cbn [foldl]. apply IH. clear id l. intros id l. unfold storePlayer. simpl.
  rewrite length_app. simpl. rewrite lookup_insert.
  case_decide as Hd; intros Hl; [injection Hl as <-; lia|].
  apply H0 in Hl. lia.
Qed.

Lemma wellFormed_updateCamera (s : GameClient) :
  wellFormed s → wellFormed (updateCamera s).
Proof.
  unfold wellFormed.
  destruct (updateCamera_storeFields s) as (_ & -> & -> & ->). done.
Qed.

Lemma movePlayer_wellFormed (s : GameClient) entry :
  wellFormed s → wellFormed (movePlayer s entry).
Proof.
  intros [Hp Hmy]. destruct entry as [id delta]. unfold movePlayer.
  destruct (players s !! id) as [l|]; [|done].
  destruct (heap s !! l) as [old|]; [|done].
  assert (∀ id' l', <[id:=length (heap s)]> (players s) !! id' = Some l' →
                    (l' < length (heap s ++ [spread old delta]))%nat) as Hnew.
  { intros id' l'. rewrite length_app, lookup_insert. simpl.
    case_decide as Hd; intros Hl; [injection Hl as <-; lia|].
    apply Hp in Hl. lia. }
  case_decide.
  - apply wellFormed_updateCamera. split; simpl; [exact Hnew|].
    intros l'. apply Hnew.
  - split; simpl; [exact Hnew|].
    intros l' H'. apply Hmy in H'. rewrite length_app. lia.
Qed.

Lemma step_wellFormed (s : GameClient) (e : Event) :
  wellFormed s → wellFormed (step s e).
Proof.
  intros Hs. destruct e as [now | message | w h]; unfold step.
  - pose proof (render_storeFields now s) as Heq. unfold storeFields in Heq.
    unfold wellFormed.
    assert (players (render now s) = players s) as -> by congruence.
    assert (myPlayer (render now s) = myPlayer s) as -> by congruence.
    assert (heap (render now s) = heap s) as -> by congruence.
    exact Hs.
  - destruct Hs as [Hp Hmy].
    destruct message as [pid ps avs| |pl av|batch|id|]; simpl; try done.
    + pose proof (storePlayers_wellFormed ps (heap s)) as Hstore.
      destruct (storePlayers ps (heap s)) as [m h].
      apply wellFormed_updateCamera. split; simpl; [exact Hstore|].
      intros l. apply Hstore.
    + split; simpl.
      * intros id l. rewrite length_app, lookup_insert. simpl.
        case_decide as Hd; intros Hl; [injection Hl as <-; lia|].
        apply Hp in Hl. lia.
      * intros l H. apply Hmy in H. rewrite length_app. lia.
    + assert (wellFormed s) as Hs by now split. clear Hp Hmy. revert s Hs.
      induction batch as [|entry batch IH]; intros s Hs; [done|].
      cbn [foldl]. apply IH. now apply movePlayer_wellFormed.
    + split; simpl; [|exact Hmy].
      intros id' l. rewrite lookup_delete.
      case_decide; [done|]. apply Hp.
  - unfold onResize. now apply wellFormed_updateCamera.
Qed.

(** In a reachable state a set [myPlayer] always designates an object. *)
Lemma reachable_wellFormed (s : GameClient) :
  reachable s →
  wellFormed s ∧ (myPlayer s = None ↔ thePlayer s = None).
Proof.
  intros Hs. assert (wellFormed s) as Hwf.
  { revert s Hs. apply reachable_invariant.
    - intros w h random.
      destruct (init_fields w h random)
        as (_ & _ & _ & _ & _ & Hmy & Hp & _).
      split; [rewrite Hp | rewrite Hmy]; [|done].
      intros id l H. now rewrite lookup_empty in H.
    - intros s e. apply step_wellFormed. }
  split; [exact Hwf|]. split; [apply thePlayer_unset|].
  destruct Hwf as [_ Hlt]. unfold thePlayer.
  destruct (myPlayer s) as [l|]; [|done].
  specialize (Hlt l eq_refl).
  apply lookup_lt_is_Some in Hlt as [p Hp]. intros Hnone.
  congruence.
Qed.

(** * Further properties of the code *)

(** ** Spawning *)

Lemma spawnItems_items random (s : GameClient) :
  items (spawnItems random s) =
  items s ++
  map (λ i, {|
         Item.id := i;
         Item.type := pickType (random (3 * i)%nat);
         Item.x := random (3 * i + 1)%nat * (worldWidth s - itemSize s);
         Item.y := random (3 * i + 2)%nat * (worldHeight s - itemSize s);
         Item.collected := false
       |}) (seq 0 50).
Proof.
  unfold spawnItems, for_loop. cbn zeta. generalize (seq 0 50) as l. intros l.
  set (W := worldWidth s). set (H := worldHeight s). set (z := itemSize s).
  assert (worldWidth s = W ∧ worldHeight s = H ∧ itemSize s = z) as Hs by done.
  clearbody W H z. revert s Hs.
  induction l as [|i l IH]; intros s (HW & HH & Hz).
  - simpl. now rewrite app_nil_r.
  - cbn [foldl map]. rewrite IH by done. simpl.
    rewrite HW, HH, Hz, <- app_assoc. done.
Qed.

Lemma spawnSnakes_snakes random (s : GameClient) :
  items (spawnSnakes random s) = items s ∧
  snakes (spawnSnakes random s) =
  snakes s ++
  map (λ i, {|
         Snake.id := i;
         Snake.x := random (150 + 2 * i)%nat * (worldWidth s - snakeWidth s);
         Snake.y := random (150 + 2 * i + 1)%nat * (worldHeight s - snakeHeight s)
       |}) (seq 0 15).
Proof.
  unfold spawnSnakes, for_loop. cbn zeta. generalize (seq 0 15) as l. intros l.
  set (W := worldWidth s). set (H := worldHeight s).
  set (w := snakeWidth s). set (h := snakeHeight s).
  assert (worldWidth s = W ∧ worldHeight s = H ∧
          snakeWidth s = w ∧ snakeHeight s = h) as Hs by done.
  clearbody W H w h. revert s Hs.
  induction l as [|i l IH]; intros s (HW & HH & Hw & Hh).
  - simpl. now rewrite app_nil_r.
  - cbn [foldl map]. destruct (IH (with_snakes
      (snakes s ++ [{|
         Snake.id := i;
         Snake.x := random (150 + 2 * i)%nat * (worldWidth s - snakeWidth s);
         Snake.y := random (150 + 2 * i + 1)%nat *
                    (worldHeight s - snakeHeight s) |}]) s)) as [-> ->];
      [done|].
    simpl. rewrite HW, HH, Hw, Hh, <- app_assoc. done.
Qed.

Lemma init_items w h random :
  items (init w h random) =
  map (λ i, {|
         Item.id := i;
         Item.type := pickType (random (3 * i)%nat);
         Item.x := random (3 * i + 1)%nat * (2048 - 20);
         Item.y := random (3 * i + 2)%nat * (2048 - 20);
         Item.collected := false
       |}) (seq 0 50).
Proof.
  unfold init.
  destruct (spawnSnakes_snakes random
              (spawnItems random (setupCanvas w h constructor))) as [-> _].
  rewrite spawnItems_items. reflexivity.
Qed.

Lemma init_snakes w h random :
  snakes (init w h random) =
  map (λ i, {|
         Snake.id := i;
         Snake.x := random (150 + 2 * i)%nat * (2048 - 15);
         Snake.y := random (150 + 2 * i + 1)%nat * (2048 - 35)
       |}) (seq 0 15).
Proof.
  unfold init.
  destruct (spawnSnakes_snakes random
              (spawnItems random (setupCanvas w h constructor))) as [_ ->].
  assert (snakes (spawnItems random (setupCanvas w h constructor)) = [] ∧
          worldWidth (spawnItems random (setupCanvas w h constructor)) = 2048 ∧
          worldHeight (spawnItems random (setupCanvas w h constructor)) = 2048 ∧
          snakeWidth (spawnItems random (setupCanvas w h constructor)) = 15 ∧
          snakeHeight (spawnItems random (setupCanvas w h constructor)) = 35)
    as (-> & -> & -> & -> & ->) by (vm_compute; repeat split; reflexivity).
  reflexivity.
Qed.

Lemma pickType_index (r : Q) :
  0 <= r → r < 1 → (0 ≤ Qfloor (r * 3) ≤ 2)%Z.
Proof.
  intros H0 H1. split.
  - change 0%Z with (Qfloor 0). apply Qfloor_resp_le. Lqa.lra.
  - assert (Qfloor (r * 3) < 3)%Z; [|lia].
    rewrite Zlt_Qlt. eapply Qle_lt_trans; [apply Qfloor_le|].
    unfold inject_Z. Lqa.lra.
Qed.

Lemma Qfloor_bounds (x : Q) (k : Z) :
  Qfloor x = k → inject_Z k <= x ∧ x < inject_Z k + 1.
Proof.
  intros <-. split; [apply Qfloor_le|].
  rewrite <- (inject_Z_plus _ 1). apply Qlt_floor.
Qed.





(** X3.  A new client has exactly 15 snakes, numbered 0 to 14 in order; when
    the random draws lie in [0, 1), the rectangle of every snake lies inside
    the world. *)
Theorem spawnSnakes_inside_world (w h : Q) (random : nat → Q) :
  (∀ n, 0 <= random n ∧ random n < 1) →
  let s := init w h random in
  length (snakes s) = 15%nat ∧
  ∀ i snake, snakes s !! i = Some snake →
    Snake.id snake = i ∧
    0 <= Snake.x snake ∧ Snake.x snake + snakeWidth s < worldWidth s ∧
    0 <= Snake.y snake ∧ Snake.y snake + snakeHeight s < worldHeight s.
Proof.
  intros Hr. cbn zeta.
  assert (worldWidth (init w h random) = 2048 ∧
          worldHeight (init w h random) = 2048 ∧
          snakeWidth (init w h random) = 15 ∧
          snakeHeight (init w h random) = 35) as (-> & -> & -> & ->)
    by (vm_compute; repeat split; reflexivity).
  rewrite init_snakes.
  split; [now rewrite length_map, length_seq|].
  intros i snake Hi. rewrite list_lookup_fmap in Hi.
  destruct (seq 0 15 !! i) as [j|] eqn:Hj; [|discriminate Hi].
  apply lookup_seq in Hj as [Hj _]. simpl in Hj. subst j. injection Hi as <-.
  cbn [Snake.id Snake.x Snake.y].
  repeat split; try done;
    match goal with |- context [random ?n] =>
      destruct (Hr n) as [H0 H1]; revert H0 H1;
      generalize (random n); intros r H0 H1; Lqa.lra
    end.
Qed.

Lemma spawnSnakes_inside_world_witness :
  length (snakes (init 800 600 (λ _, 1 # 2))) = 15%nat.
Proof.
  apply (spawnSnakes_inside_world 800 600 (λ _, 1 # 2)).
  intros n. split; [discriminate | reflexivity].
Defined.

(** ** The camera and the visible window *)

Lemma updateCamera_camera (s : GameClient) (p : Player.t) :
  thePlayer s = Some p →
  cameraX (updateCamera s) =
    (if Qltb (canvas_width s) (worldWidth s)
     then Qmax 0 (Qmin (Player.x p - canvas_width s / 2)
                    (worldWidth s - canvas_width s))
     else (worldWidth s - canvas_width s) / 2) ∧
  cameraY (updateCamera s) =
    (if Qltb (canvas_height s) (worldHeight s)
     then Qmax 0 (Qmin (Player.y p - canvas_height s / 2)
                    (worldHeight s - canvas_height s))
     else (worldHeight s - canvas_height s) / 2) ∧
  canvas_width (updateCamera s) = canvas_width s ∧
  canvas_height (updateCamera s) = canvas_height s ∧
  worldWidth (updateCamera s) = worldWidth s ∧
  worldHeight (updateCamera s) = worldHeight s.
Proof. intros Hp. unfold updateCamera. now rewrite Hp. Qed.

(** One axis of the camera, for a viewport smaller than the world. *)
Lemma clamped_axis (position viewport world : Q) :
  let camera := Qmax 0 (Qmin (position - viewport / 2) (world - viewport)) in
  0 <= viewport → viewport < world →
  0 <= camera ∧ camera + viewport <= world ∧
  (0 <= position → position <= world →
     0 <= position - camera ∧ position - camera <= viewport) ∧
  (viewport / 2 <= position → position <= world - viewport / 2 →
     camera == position - viewport / 2).
Proof.
  cbn zeta. intros H0 Hlt.
  set (naive := position - viewport / 2).
  assert (naive == position - viewport * (1 # 2)) as Hnaive
    by (unfold naive; field).
  assert (viewport / 2 == viewport * (1 # 2)) as Hhalf by field.
  destruct (Q.min_spec naive (world - viewport)) as [[Hc Hmin] | [Hc Hmin]];
    destruct (Q.max_spec 0 (Qmin naive (world - viewport)))
      as [[Hd Hmax] | [Hd Hmax]];
    rewrite Hmax; rewrite ?Hhalf; rewrite Hmin in *;
    repeat split; intros; Lqa.lra.
Qed.

(** X4.  With a local player inside the world and a viewport smaller than
    the world, the recomputed camera keeps the player inside the viewport
    on both axes; when the player is at least half a viewport away from the
    borders of the world, the player is exactly at the centre of the
    viewport. *)
Theorem camera_keeps_player_in_view (s : GameClient) (p : Player.t) :
  thePlayer s = Some p →
  0 <= canvas_width s → canvas_width s < worldWidth s →
  0 <= canvas_height s → canvas_height s < worldHeight s →
  let s' := updateCamera s in
  let screenX := Player.x p - cameraX s' in
  let screenY := Player.y p - cameraY s' in
  (0 <= Player.x p → Player.x p <= worldWidth s →
     0 <= screenX ∧ screenX <= canvas_width s) ∧
  (0 <= Player.y p → Player.y p <= worldHeight s →
     0 <= screenY ∧ screenY <= canvas_height s) ∧
  (canvas_width s / 2 <= Player.x p →
   Player.x p <= worldWidth s - canvas_width s / 2 →
     screenX == canvas_width s / 2) ∧
  (canvas_height s / 2 <= Player.y p →
   Player.y p <= worldHeight s - canvas_height s / 2 →
     screenY == canvas_height s / 2).
Proof.
  intros Hp Hw0 Hw Hh0 Hh. cbn zeta.
  destruct (updateCamera_camera s p Hp) as (-> & -> & _).
  apply Qltb_lt in Hw as Hwb. apply Qltb_lt in Hh as Hhb. rewrite Hwb, Hhb.
  destruct (clamped_axis (Player.x p) (canvas_width s) (worldWidth s) Hw0 Hw)
    as (_ & _ & HX & HXc).
  destruct (clamped_axis (Player.y p) (canvas_height s) (worldHeight s) Hh0 Hh)
    as (_ & _ & HY & HYc).
  split; [exact HX|]. split; [exact HY|]. split.
  - intros H1 H2. rewrite (HXc H1 H2). ring.
  - intros H1 H2. rewrite (HYc H1 H2). ring.
Qed.

Lemma camera_keeps_player_in_view_witness :
  0 <= Player.x tim - cameraX (updateCamera joined) ∧
  Player.x tim - cameraX (updateCamera joined) <= canvas_width joined.
Proof.
  destruct (camera_keeps_player_in_view joined tim) as (HX & _).
  - vm_compute. reflexivity.
  - vm_compute. discriminate.
  - vm_compute. reflexivity.
  - vm_compute. discriminate.
  - vm_compute. reflexivity.
  - apply HX; vm_compute; discriminate.
Defined.

(** X5.  After the camera is recomputed for a local player, [drawWorld]
    copies the map without scaling to the top-left corner of the canvas.  On
    an axis where the viewport is smaller than the world the source
    rectangle lies inside the map and is as wide as the canvas; on an axis
    where the viewport is at least as large as the world the source
    rectangle starts at or before 0 and ends exactly at the far border of
    the map.  Nothing is drawn while the map image is not set. *)
Theorem drawWorld_crop (s : GameClient) (p : Player.t) :
  thePlayer s = Some p →
  0 <= canvas_width s → 0 <= canvas_height s →
  drawWorld false (updateCamera s) = None ∧
  ∃ d, drawWorld true (updateCamera s) = Some d ∧
    DrawImage.dx d = 0 ∧ DrawImage.dy d = 0 ∧
    DrawImage.dWidth d = DrawImage.sWidth d ∧
    DrawImage.dHeight d = DrawImage.sHeight d ∧
    (canvas_width s < worldWidth s →
       0 <= DrawImage.sx d ∧ DrawImage.sWidth d == canvas_width s ∧
       DrawImage.sx d + DrawImage.sWidth d <= worldWidth s) ∧
    (worldWidth s <= canvas_width s →
       DrawImage.sx d <= 0 ∧
       DrawImage.sx d + DrawImage.sWidth d == worldWidth s) ∧
    (canvas_height s < worldHeight s →
       0 <= DrawImage.sy d ∧ DrawImage.sHeight d == canvas_height s ∧
       DrawImage.sy d + DrawImage.sHeight d <= worldHeight s) ∧
    (worldHeight s <= canvas_height s →
       DrawImage.sy d <= 0 ∧
       DrawImage.sy d + DrawImage.sHeight d == worldHeight s).
Proof.
  intros Hp Hw0 Hh0. split; [reflexivity|].
  eexists. split; [reflexivity|]. cbn [DrawImage.dx DrawImage.dy
    DrawImage.dWidth DrawImage.dHeight DrawImage.sx DrawImage.sy
    DrawImage.sWidth DrawImage.sHeight].
  destruct (updateCamera_camera s p Hp) as (-> & -> & -> & -> & -> & ->).
  do 4 (split; [reflexivity|]).
  assert (∀ position viewport world,
    0 <= viewport →
    let camera :=
      if Qltb viewport world
      then Qmax 0 (Qmin (position - viewport / 2) (world - viewport))
      else (world - viewport) / 2 in
    (viewport < world →
       0 <= camera ∧ Qmin viewport (world - camera) == viewport ∧
       camera + Qmin viewport (world - camera) <= world) ∧
    (world <= viewport →
       camera <= 0 ∧ camera + Qmin viewport (world - camera) == world))
    as Haxis.
  { intros position viewport world H0. cbn zeta. split.
    - intros Hlt. apply Qltb_lt in Hlt as Hb. rewrite Hb.
      destruct (clamped_axis position viewport world H0 Hlt) as (Hc0 & Hc1 & _).
      cbn zeta in Hc0, Hc1.
      set (camera := Qmax 0 _) in *.
      rewrite (Q.min_l viewport (world - camera)) by Lqa.lra.
      split; [exact Hc0|]. split; [reflexivity | exact Hc1].
    - intros Hge. apply Qltb_ge in Hge as Hb. rewrite Hb.
      assert ((world - viewport) / 2 == (world - viewport) * (1 # 2)) as Hhalf
        by field.
      rewrite (Q.min_r viewport (world - (world - viewport) / 2))
        by (rewrite Hhalf; Lqa.lra).
      rewrite Hhalf. split; Lqa.lra. }
  destruct (Haxis (Player.x p) (canvas_width s) (worldWidth s) Hw0) as [HX1 HX2].
  destruct (Haxis (Player.y p) (canvas_height s) (worldHeight s) Hh0) as [HY1 HY2].
  cbn zeta in *. done.
Qed.

Lemma drawWorld_crop_witness :
  ∃ d, drawWorld true (updateCamera joined) = Some d ∧
       DrawImage.dWidth d = DrawImage.sWidth d.
Proof.
  destruct (drawWorld_crop joined tim) as (_ & d & Hd & _ & _ & Hw & _).
  - vm_compute. reflexivity.
  - vm_compute. discriminate.
  - vm_compute. discriminate.
  - exists d. now split.
Defined.

Lemma with_camera_id (s : GameClient) :
  with_camera (cameraX s) (cameraY s) s = s.
Proof. now destruct s. Qed.

Lemma inSync_updateCamera (s : GameClient) : inSync (updateCamera s).
Proof.
  unfold inSync, updateCamera, thePlayer.
  destruct (myPlayer s) as [l|] eqn:Hmy; [|now rewrite Hmy].
  destruct (heap s !! l) as [p|] eqn:Hp; simpl; rewrite Hmy, ?Hp; done.
Qed.

(** The camera stays in sync when fields that [updateCamera] does not read
    change, as long as the local player object is the same. *)
Lemma inSync_frame (s s' : GameClient) :
  thePlayer s' = thePlayer s →
  (worldWidth s', worldHeight s', canvas_width s', canvas_height s',
   cameraX s', cameraY s') =
  (worldWidth s, worldHeight s, canvas_width s, canvas_height s,
   cameraX s, cameraY s) →
  inSync s → inSync s'.
Proof.
  unfold inSync, updateCamera. intros Hp Heq Hs. rewrite Hp.
  destruct (thePlayer s) as [p|]; [|done].
  injection Heq as -> -> -> -> HX HY.
  apply (f_equal (λ s, (cameraX s, cameraY s))) in Hs. simpl in Hs.
  injection Hs as -> ->. rewrite <- HX, <- HY. apply with_camera_id.
Qed.

Lemma thePlayer_grow (s : GameClient) (h : list Player.t) :
  wellFormed s →
  match myPlayer s with
  | Some l => (heap s ++ h) !! l
  | None => None
  end = thePlayer s.
Proof.
  intros [_ Hmy]. unfold thePlayer. destruct (myPlayer s) as [l|]; [|done].
  apply lookup_app_l. now apply Hmy.
Qed.

Lemma movePlayer_inSync (s : GameClient) entry :
  wellFormed s → inSync s → inSync (movePlayer s entry).
Proof.
  intros Hwf Hs. destruct entry as [id delta]. unfold movePlayer.
  destruct (players s !! id) as [l|]; [|done].
  destruct (heap s !! l) as [old|]; [|done].
  case_decide; [apply inSync_updateCamera|].
  apply (inSync_frame s); [|done|done].
  apply (thePlayer_grow s [spread old delta] Hwf).
Qed.

Lemma step_inSync (s : GameClient) (e : Event) :
  wellFormed s → inSync s → inSync (step s e).
Proof.
  intros Hwf Hs. destruct e as [now | message | w h]; unfold step.
  - pose proof (render_storeFields now s) as Heq. unfold storeFields in Heq.
    apply (inSync_frame s); [|congruence|done].
    unfold thePlayer.
    assert (myPlayer (render now s) = myPlayer s) as -> by congruence.
    assert (heap (render now s) = heap s) as -> by congruence.
    done.
  - destruct message as [pid ps avs| |pl av|batch|id|]; simpl; try done.
    + destruct (storePlayers ps (heap s)) as [m h].
      apply inSync_updateCamera.
    + apply (inSync_frame s); [|done|done].
      apply (thePlayer_grow s [pl] Hwf).
    + revert s Hwf Hs.
      induction batch as [|entry batch IH]; intros s Hwf Hs; [done|].
      cbn [foldl]. apply IH.
      * now apply movePlayer_wellFormed.
      * now apply movePlayer_inSync.
    + now apply (inSync_frame s).
  - apply inSync_updateCamera.
Qed.

(** X6.  The camera is never stale: in every reachable state, recomputing
    the camera changes nothing, that is, the camera offsets are the ones
    [updateCamera] computes from the current local player, canvas and
    world. *)
Theorem camera_in_sync (s : GameClient) :
  reachable s → updateCamera s = s.
Proof.
  intros Hs.
  assert (wellFormed s ∧ inSync s) as [_ H]; [|exact H].
  revert s Hs. apply reachable_invariant.
  - intros w h random.
    destruct (init_fields w h random) as (_ & _ & _ & _ & _ & Hmy & Hp & _).
    split.
    + split; [rewrite Hp | rewrite Hmy]; [|done].
      intros id l H. now rewrite lookup_empty in H.
    + apply updateCamera_unset, Hmy.
  - intros s e [Hwf Hs]. split;
      [now apply step_wellFormed | now apply step_inSync].
Qed.

Lemma camera_in_sync_witness :
  updateCamera (run (init 800 600 drawsItem) [Receive joinTim; Render 5000]) =
  run (init 800 600 drawsItem) [Receive joinTim; Render 5000].
Proof. apply camera_in_sync, reachable_run. Defined.

(** ** What is painted *)







(** ** Floating texts over their lifetime *)

Lemma wellFormedText_new (x y : Q) (s : GameClient) :
  Forall wellFormedText (floatingTexts s) →
  Forall wellFormedText (floatingTexts (addFloatingText x y "+5" "#00FF00" s)) ∧
  Forall wellFormedText (floatingTexts (addFloatingText x y "-5" "#FF0000" s)).
Proof.
  intros H. split; simpl; apply Forall_app; (split; [exact H|]);
    apply Forall_singleton; unfold wellFormedText; simpl;
    (split; [reflexivity|]); (split; [reflexivity|]); (split; [lia|]);
    [left | right]; split; reflexivity.
Qed.

Lemma wellFormedText_ageAll (l : list FloatingText.t) :
  Forall wellFormedText l → Forall wellFormedText (ageAll l).
Proof.
  intros H. rewrite ageAll_filter. apply Forall_forall. intros text Hin.
  apply list_elem_of_filter in Hin as [Hpos Hin].
  apply list_elem_of_fmap in Hin as (text0 & -> & Hin).
  rewrite Forall_forall in H. destruct (H text0 Hin) as (Hm & Hv & Hl & Hc).
  simpl in Hpos. repeat split; simpl; try done; lia.
Qed.

Lemma reachable_wellFormedText (s : GameClient) :
  reachable s → Forall wellFormedText (floatingTexts s).
Proof.
  intros (w & h & random & events & ->).
  apply (run_simulation_invariant
           (λ s, Forall wellFormedText (floatingTexts s))).
  - intros s1 s2 Heq.
    assert (floatingTexts s1 = floatingTexts s2) as ->
      by (unfold simulationFields in Heq; congruence).
    done.
  - done.
  - intros p item s1 H.
    apply (wellFormedText_new (Player.x p) (Player.y p - 30)
             (with_playerHealth (Z.min 100 (playerHealth s1 + 5))
                (with_inventory (increment (Item.type item) (inventory s1)) s1))).
    exact H.
  - intros p t s1 H.
    apply (wellFormedText_new (Player.x p) (Player.y p - 30)
             (with_playerHealth (Z.max 0 (playerHealth s1 - 5)) s1)).
    exact H.
  - intros s1 H. now apply wellFormedText_ageAll.
  - destruct (init_fields w h random) as (_ & _ & -> & _). constructor.
Qed.

Lemma String_length_app (a b : string) :
  String.length (a +:+ b) = (String.length a + String.length b)%nat.
Proof. induction a as [|c a IH]; [done|]. simpl. now rewrite IH. Qed.

(** The opacity suffix for a text with [life] frames left out of 60. *)
Lemma opacity_two_digits (life : Z) :
  (0 < life ≤ 60)%Z →
  String.length
    (padStart 2 "0"%char
       (toString16 (Qfloor (inject_Z life / inject_Z 60 * 255)))) = 2%nat ∧
  (0 ≤ Qfloor (inject_Z life / inject_Z 60 * 255) ≤ 255)%Z.
Proof.
  intros Hlife.
  assert (∃ n, (n < 60)%nat ∧ life = Z.of_nat (S n)) as (n & Hn & ->)
    by (exists (Z.to_nat (life - 1)); lia).
  clear Hlife.
  assert (forallb (λ n,
    Nat.eqb (String.length
      (padStart 2 "0"%char
         (toString16 (Qfloor (inject_Z (Z.of_nat (S n)) / inject_Z 60 * 255)))))
      2 &&
    (0 <=? Qfloor (inject_Z (Z.of_nat (S n)) / inject_Z 60 * 255))%Z &&
    (Qfloor (inject_Z (Z.of_nat (S n)) / inject_Z 60 * 255) <=? 255)%Z)
    (seq 0 60) = true) as Hall by (vm_compute; reflexivity).
  rewrite forallb_forall in Hall.
  specialize (Hall n). rewrite in_seq in Hall.
  destruct (andb_prop _ _ (Hall ltac:(lia))) as [H12 H3].
  destruct (andb_prop _ _ H12) as [H1 H2].
  apply Nat.eqb_eq in H1. split; [exact H1 | lia].
Qed.

(** X10.  Every floating text of a reachable state is a green "+5" or a red
    "-5" with drift -2, at most 60 frames to live out of 60; the colour
    [drawFloatingText] paints it with is its colour followed by an opacity
    between 0 and 255 written as exactly two hexadecimal digits, nine
    characters in all. *)
Theorem floating_text_color (s : GameClient) (text : FloatingText.t) :
  reachable s → text ∈ floatingTexts s →
  wellFormedText text ∧
  let opacity :=
    Qfloor (inject_Z (FloatingText.life text) /
            inject_Z (FloatingText.maxLife text) * 255) in
  (0 ≤ opacity ≤ 255)%Z ∧
  floatingTextColor text =
    FloatingText.color text +:+ padStart 2 "0"%char (toString16 opacity) ∧
  String.length (padStart 2 "0"%char (toString16 opacity)) = 2%nat ∧
  String.length (floatingTextColor text) = 9%nat ∧
  (drawFloatingText s text).1.1.1 = floatingTextColor text.
Proof.
  intros Hs Hin. apply reachable_wellFormedText in Hs.
  rewrite Forall_forall in Hs. specialize (Hs text Hin).
  split; [exact Hs|]. destruct Hs as (Hmax & _ & Hlife & Hcolor).
  cbn zeta.
  assert ((drawFloatingText s text).1.1.1 = floatingTextColor text) as Hdraw
    by reflexivity.
  revert Hdraw. unfold floatingTextColor. rewrite Hmax. intros Hdraw.
  destruct (opacity_two_digits (FloatingText.life text) Hlife) as [Hlen Hrange].
  split; [exact Hrange|]. split; [reflexivity|]. split; [exact Hlen|].
  split; [|exact Hdraw].
  rewrite String_length_app, Hlen.
  now destruct Hcolor as [[_ ->] | [_ ->]].
Qed.

Example floatingTextColor_samples :
  let text life := FloatingText.mk 100 70 "+5" "#00FF00" life 60 (-2) in
  floatingTextColor (text 59%Z) = "#00FF00fa" ∧
  floatingTextColor (text 30%Z) = "#00FF007f" ∧
  floatingTextColor (text 1%Z) = "#00FF0004".
Proof. vm_compute. repeat split; reflexivity. Qed.

Lemma floating_text_color_witness :
  ∃ text, text ∈ floatingTexts orchard ∧
          String.length (floatingTextColor text) = 9%nat.
Proof.
  assert (∃ text, floatingTexts orchard !! 0%nat = Some text) as [text Htext]
    by (vm_compute; eexists; reflexivity).
  apply list_elem_of_lookup_2 in Htext.
  exists text. split; [exact Htext|].
  apply (floating_text_color orchard text reachable_orchard Htext).
Defined.

Lemma ageAll_singleton (text : FloatingText.t) :
  ageAll [text] =
  if (1 <? FloatingText.life text)%Z then [age text] else [].
Proof.
  simpl. destruct (Z.ltb_spec 0 (FloatingText.life text - 1));
    destruct (Z.ltb_spec 1 (FloatingText.life text)); try lia; done.
Qed.



(** ** One pass over the items, one pass over the snakes *)

Lemma checkItem_pickable (p : Player.t) (item : Item.t) (s : GameClient) :
  checkItem p item s =
  if decide (pickable p (itemSize s) item)
  then (markCollected item,
        addFloatingText (Player.x p) (Player.y p - 30) "+5" "#00FF00"
          (with_playerHealth (Z.min 100 (playerHealth s + 5))
             (with_inventory (increment (Item.type item) (inventory s)) s)))
  else (item, s).
Proof.
  destruct (decide (pickable p (itemSize s) item)) as [[Hunc Hreach] | Hn].
  - unfold checkItem. rewrite Hunc. cbn zeta.
    unfold inReach in Hreach. now rewrite Hreach.
  - unfold checkItem. destruct (Item.collected item) eqn:Hunc; [done|].
    cbn zeta. destruct (sqrt_lt _ _) eqn:Hreach; [|done].
    destruct Hn. now split.
Qed.

Lemma forEachItem_pass (p : Player.t) (l : list Item.t) (s : GameClient) :
  let k := length (filter (pickable p (itemSize s)) l) in
  let s' := (forEachItem p l s).2 in
  (forEachItem p l s).1 =
    (λ item, if decide (pickable p (itemSize s) item)
             then markCollected item else item) <$> l ∧
  itemSize s' = itemSize s ∧
  playerHealth s' =
    (if decide (k = 0%nat) then playerHealth s
     else Z.min 100 (playerHealth s + 5 * Z.of_nat k)) ∧
  inventoryTotal (inventory s') = (inventoryTotal (inventory s) + k)%nat ∧
  floatingTexts s' = floatingTexts s ++ replicate k (healText p) ∧
  lastSnakeDamage s' = lastSnakeDamage s.
Proof.
  revert s. induction l as [|item l IH]; intros s.
  - cbn zeta. simpl. rewrite app_nil_r. done.
  - cbn zeta. rewrite forEachItem_cons, fmap_cons, filter_cons. cbn [fst snd].
    rewrite checkItem_pickable.
    case_decide as Hpick; cbn [fst snd].
    + match goal with |- context [forEachItem p l ?s1] =>
        destruct (IH s1) as (H1 & H2 & H3 & H4 & H5 & H6) end.
      cbn zeta in *. simpl in H1, H2, H3, H4, H5, H6.
      rewrite H1, H2, H3, H4, H5, H6.
      rewrite inventoryTotal_increment. cbn [length replicate].
      split; [done|]. split; [done|]. split.
      { case_decide; case_decide; lia. }
      split; [lia|]. split; [|done].
      rewrite <- app_assoc. done.
    + destruct (IH s) as (H1 & H2 & H3 & H4 & H5 & H6).
      cbn zeta in *. rewrite H1. done.
Qed.



Lemma checkSnakes_pass (p : Player.t) (t : Z) l (s : GameClient) :
  let k := length (filter (touches p (snakeWidth s) (snakeHeight s)) l) in
  let s' := foldl (checkSnake p t) s l in
  playerHealth s' =
    (if decide (k = 0%nat) then playerHealth s
     else Z.max 0 (playerHealth s - 5 * Z.of_nat k)) ∧
  floatingTexts s' = floatingTexts s ++ replicate k (damageText p) ∧
  lastSnakeDamage s' =
    (if decide (k = 0%nat) then lastSnakeDamage s else t) ∧
  items s' = items s ∧ inventory s' = inventory s.
Proof.
  revert s. induction l as [|snake l IH]; intros s.
  - cbn zeta. simpl. rewrite app_nil_r. done.
  - cbn zeta. cbn [foldl]. rewrite filter_cons.
    destruct (IH (checkSnake p t s snake)) as (H1 & H2 & H3 & H4 & H5).
    cbn zeta in *.
    destruct (checkSnake_fields p t s snake) as [Ew Eh]. rewrite Ew, Eh in *.
    rewrite H1, H2, H3, H4, H5. clear H1 H2 H3 H4 H5.
    destruct (decide (touches p (snakeWidth s) (snakeHeight s) snake))
      as [Htouch | Htouch].
    + rewrite checkSnake_touch by exact Htouch. cbn [length replicate].
      simpl. split; [repeat case_decide; lia|].
      split; [now rewrite <- app_assoc|].
      split; [now repeat case_decide|done].
    + rewrite checkSnake_miss by exact Htouch. done.
Qed.



(** ** Items, snakes and health along a run *)

Lemma sameItem_refl (item : Item.t) : sameItem item item.
Proof. unfold sameItem. done. Qed.

Lemma sameItem_trans (a b c : Item.t) :
  sameItem a b → sameItem b c → sameItem a c.
Proof.
  unfold sameItem. intros (-> & -> & -> & -> & H1) (-> & -> & -> & -> & H2).
  repeat split; auto.
Qed.

Lemma step_sameItem (s : GameClient) (e : Event) :
  Forall2 sameItem (items s) (items (step s e)).
Proof.
  assert (Forall2 sameItem (items s) (items s)) as Hrefl
    by (apply Forall_Forall2_diag, Forall_forall; intros; apply sameItem_refl).
  destruct e as [now | message | w h]; unfold step.
  - destruct (render_items now s) as [-> _].
    unfold checkItemCollisions. destruct (thePlayer s) as [p|]; [|exact Hrefl].
    destruct (forEachItem_pass p (items s) s) as (H1 & _).
    destruct (forEachItem p (items s) s) as [l s1]. simpl in *. subst l.
    apply Forall2_fmap_r, Forall_Forall2_diag, Forall_forall.
    intros item _. simpl. case_decide; [|apply sameItem_refl].
    unfold sameItem. done.
  - pose proof (handleServerMessage_simulationFields message s) as Heq.
    unfold simulationFields in Heq.
    assert (items (handleServerMessage message s) = items s) as -> by congruence.
    exact Hrefl.
  - pose proof (onResize_simulationFields w h s) as Heq.
    unfold simulationFields in Heq.
    assert (items (onResize w h s) = items s) as -> by congruence.
    exact Hrefl.
Qed.

Lemma run_sameItem (s : GameClient) (events : list Event) :
  Forall2 sameItem (items s) (items (run s events)).
Proof.
  revert s. induction events as [|e events IH]; intros s.
  - apply Forall_Forall2_diag, Forall_forall. intros. apply sameItem_refl.
  - simpl. eapply Forall2_trans; [apply sameItem_trans | apply step_sameItem |].
    apply IH.
Qed.

(** X14.  Along every run the item array keeps its items: the item at each
    index keeps its id, type and position, and a collected flag that is set
    stays set, so the number of collected items never decreases. *)
Theorem items_keep_identity (s : GameClient) (events : list Event) :
  Forall2 sameItem (items s) (items (run s events)) ∧
  (∀ i item, items s !! i = Some item →
     ∃ item', items (run s events) !! i = Some item' ∧ sameItem item item') ∧
  (collectedCount (items s) ≤ collectedCount (items (run s events)))%nat.
Proof.
  pose proof (run_sameItem s events) as H. split; [exact H|]. split.
  - intros i item Hi. now apply (Forall2_lookup_l _ _ _ i item) in H.
  - induction H as [|a b l k Hab _ IH]; [done|].
    rewrite !collectedCount_cons. destruct Hab as (_ & _ & _ & _ & Hc).
    destruct (Item.collected a); [rewrite Hc by done; lia|].
    destruct (Item.collected b); lia.
Qed.

Lemma damageTexts_ageAll (l : list FloatingText.t) :
  (length (damageTexts (ageAll l)) ≤ length (damageTexts l))%nat.
Proof.
  unfold damageTexts. induction l as [|text l IH]; [done|].
  simpl. rewrite filter_cons.
  destruct (_ <? _)%Z; [rewrite filter_cons; simpl|];
    case_decide; simpl; lia.
Qed.

Lemma run_withinCooldown (s : GameClient) (events : list Event) :
  (playerHealth s ≤ 100)%Z →
  Forall (withinCooldown (lastSnakeDamage s)) events →
  lastSnakeDamage (run s events) = lastSnakeDamage s ∧
  (playerHealth s ≤ playerHealth (run s events) ≤ 100)%Z ∧
  (length (damageTexts (floatingTexts (run s events))) ≤
   length (damageTexts (floatingTexts s)))%nat.
Proof.
  revert s. induction events as [|e events IH]; intros s Hh Hev.
  - simpl. repeat split; lia.
  - apply Forall_cons in Hev as [He Hev]. simpl.
    assert (lastSnakeDamage (step s e) = lastSnakeDamage s ∧
            (playerHealth s ≤ playerHealth (step s e) ≤ 100)%Z ∧
            (length (damageTexts (floatingTexts (step s e))) ≤
             length (damageTexts (floatingTexts s)))%nat) as (E1 & E2 & E3).
    { destruct e as [now | message | w h]; unfold step.
      - simpl in He. unfold render.
        assert (lastSnakeDamage (checkItemCollisions s) = lastSnakeDamage s ∧
                (playerHealth s ≤ playerHealth (checkItemCollisions s) ≤ 100)%Z ∧
                damageTexts (floatingTexts (checkItemCollisions s)) =
                damageTexts (floatingTexts s)) as (F1 & F2 & F3).
        { apply (checkItemCollisions_invariant (λ s1,
            lastSnakeDamage s1 = lastSnakeDamage s ∧
            (playerHealth s ≤ playerHealth s1 ≤ 100)%Z ∧
            damageTexts (floatingTexts s1) = damageTexts (floatingTexts s)));
            [done| |split; [done|split; [lia|done]]].
          intros p item s1 (G1 & G2 & G3). simpl.
          split; [exact G1|]. split; [lia|].
          unfold damageTexts in *. rewrite filter_app, G3. simpl.
          apply app_nil_r. }
        rewrite checkSnakeCollisions_cooldown by (rewrite F1; exact He).
        simpl. split; [exact F1|]. split; [exact F2|].
        rewrite <- F3. apply damageTexts_ageAll.
      - pose proof (handleServerMessage_simulationFields message s) as Heq.
        unfold simulationFields in Heq.
        assert (lastSnakeDamage (handleServerMessage message s) =
                lastSnakeDamage s) as -> by congruence.
        assert (playerHealth (handleServerMessage message s) = playerHealth s)
          as -> by congruence.
        assert (floatingTexts (handleServerMessage message s) = floatingTexts s)
          as -> by congruence.
        repeat split; lia.
      - pose proof (onResize_simulationFields w h s) as Heq.
        unfold simulationFields in Heq.
        assert (lastSnakeDamage (onResize w h s) = lastSnakeDamage s)
          as -> by congruence.
        assert (playerHealth (onResize w h s) = playerHealth s)
          as -> by congruence.
        assert (floatingTexts (onResize w h s) = floatingTexts s)
          as -> by congruence.
        repeat split; lia. }
    destruct (IH (step s e)) as (K1 & K2 & K3); [lia|now rewrite E1|].
    unfold run in *. rewrite K1, E1. repeat split; lia.
Qed.

(** X15.  While the snake cooldown runs, nothing hurts: if every frame of a
    run is rendered less than 1000 ms after the last bite, then along the
    run the cooldown is not restarted, the health (at most 100 to begin
    with) never ends below where it started, and no "-5" text is added. *)
Theorem no_damage_within_cooldown (s : GameClient) (events : list Event) :
  (playerHealth s ≤ 100)%Z →
  Forall (withinCooldown (lastSnakeDamage s)) events →
  lastSnakeDamage (run s events) = lastSnakeDamage s ∧
  (playerHealth s ≤ playerHealth (run s events) ≤ 100)%Z ∧
  (length (damageTexts (floatingTexts (run s events))) ≤
   length (damageTexts (floatingTexts s)))%nat.
Proof. apply run_withinCooldown. Qed.

Lemma no_damage_within_cooldown_witness :
  let s := render 5000 joined in
  playerHealth (run s [Render 5016; Render 5999]) = 90%Z.
Proof.
  cbn zeta.
  assert (playerHealth (render 5000 joined) = 90%Z ∧
          lastSnakeDamage (render 5000 joined) = 5000%Z ∧
          playerHealth (run (render 5000 joined) [Render 5016; Render 5999])
            ≤ 90)%Z as (Hh & Ht & Hle)
    by (vm_compute; repeat split; try reflexivity; discriminate).
  destruct (no_damage_within_cooldown (render 5000 joined)
              [Render 5016; Render 5999]) as (_ & [Hge _] & _).
  - rewrite Hh. lia.
  - rewrite Ht. repeat constructor; simpl; lia.
  - lia.
Defined.

Lemma movePlayer_world (s : GameClient) entry :
  worldWidth (movePlayer s entry) = worldWidth s ∧
  worldHeight (movePlayer s entry) = worldHeight s.
Proof.
  destruct entry as [id delta]. unfold movePlayer.
  destruct (players s !! id) as [l|]; [|done].
  destruct (heap s !! l) as [old|]; [|done].
  case_decide; [|done]. unfold updateCamera.
  now destruct (thePlayer _).
Qed.

Lemma step_world (s : GameClient) (e : Event) :
  worldWidth (step s e) = worldWidth s ∧
  worldHeight (step s e) = worldHeight s.
Proof.
  destruct e as [now | message | w h]; unfold step.
  - pose proof (render_storeFields now s) as Heq. unfold storeFields in Heq.
    split; congruence.
  - destruct message as [pid ps avs| |pl av|batch|id|]; simpl; try done.
    + destruct (storePlayers ps (heap s)) as [m h0]. unfold updateCamera.
      now destruct (thePlayer _).
    + revert s. induction batch as [|entry batch IH]; intros s; [done|].
      cbn [foldl]. destruct (IH (movePlayer s entry)) as [-> ->].
      apply movePlayer_world.
  - unfold onResize, updateCamera. now destruct (thePlayer _).
Qed.

Lemma step_constants (s : GameClient) (e : Event) :
  (itemSize (step s e), snakes (step s e), snakeWidth (step s e),
   snakeHeight (step s e)) =
  (itemSize s, snakes s, snakeWidth s, snakeHeight s).
Proof.
  apply (step_invariant (λ s1,
    (itemSize s1, snakes s1, snakeWidth s1, snakeHeight s1) =
    (itemSize s, snakes s, snakeWidth s, snakeHeight s))); try done.
  intros s1 s2 Heq H. unfold simulationFields in Heq.
  rewrite <- H. f_equal; [f_equal; [f_equal|]|]; congruence.
Qed.

Lemma run_constants (s : GameClient) (events : list Event) :
  (worldWidth (run s events), worldHeight (run s events),
   (itemSize (run s events), snakes (run s events),
    snakeWidth (run s events), snakeHeight (run s events))) =
  (worldWidth s, worldHeight s,
   (itemSize s, snakes s, snakeWidth s, snakeHeight s)).
Proof.
  apply (run_invariant (λ s1,
    (worldWidth s1, worldHeight s1,
     (itemSize s1, snakes s1, snakeWidth s1, snakeHeight s1)) =
    (worldWidth s, worldHeight s,
     (itemSize s, snakes s, snakeWidth s, snakeHeight s)))); [done|].
  intros s1 e H. rewrite <- H. rewrite (step_constants s1 e).
  destruct (step_world s1 e) as [-> ->]. done.
Qed.

Lemma run_constants_fields (s : GameClient) (events : list Event) :
  worldWidth (run s events) = worldWidth s ∧
  worldHeight (run s events) = worldHeight s ∧
  itemSize (run s events) = itemSize s ∧
  snakeWidth (run s events) = snakeWidth s ∧
  snakeHeight (run s events) = snakeHeight s ∧
  snakes (run s events) = snakes s.
Proof.
  pose proof (run_constants s events) as Heq.
  injection Heq as -> -> -> -> -> ->. done.
Qed.

(** X16.  The world and the hazards are fixed for the life of a client: in
    every state of every run the world is 2048 by 2048, items are of size
    20, snakes are 15 by 35, the snakes are exactly the 15 snakes that were
    spawned, unmoved, and the item array still has its 50 items. *)
Theorem world_is_fixed (w h : Q) (random : nat → Q) (events : list Event) :
  let s := run (init w h random) events in
  worldWidth s = 2048 ∧ worldHeight s = 2048 ∧
  itemSize s = 20 ∧ snakeWidth s = 15 ∧ snakeHeight s = 35 ∧
  snakes s = snakes (init w h random) ∧
  length (snakes s) = 15%nat ∧ length (items s) = 50%nat.
Proof.
  cbn zeta.
  assert (worldWidth (init w h random) = 2048 ∧
          worldHeight (init w h random) = 2048 ∧
          itemSize (init w h random) = 20 ∧
          snakeWidth (init w h random) = 15 ∧
          snakeHeight (init w h random) = 35) as Hinit
    by (vm_compute; repeat split; reflexivity).
  assert (length (snakes (init w h random)) = 15%nat) as Hsnakes
    by now rewrite init_snakes, length_map, length_seq.
  assert (length (items (init w h random)) = 50%nat) as Hitems
    by now rewrite init_items, length_map, length_seq.
  destruct (run_items (init w h random) events) as (Hlen & _).
  destruct (run_constants_fields (init w h random) events)
    as (E1 & E2 & E3 & E4 & E5 & E6).
  rewrite Hlen, E1, E2, E3, E4, E5, E6.
  destruct Hinit as (H1 & H2 & H3 & H4 & H5).
  split; [exact H1|]. split; [exact H2|]. split; [exact H3|].
  split; [exact H4|]. split; [exact H5|]. split; [reflexivity|].
  split; [exact Hsnakes | exact Hitems].
Qed.

(** ** The player collection, message by message *)

Lemma with_players_id (s : GameClient) : with_players (players s) s = s.
Proof. now destruct s. Qed.

Lemma storePlayers_fold entries (m0 : gmap string nat) (h0 : list Player.t) :
  let acc := foldl storePlayer (m0, h0) entries in
  acc.2 = h0 ++ entries.*2 ∧
  dom acc.1 = dom m0 ∪ list_to_set entries.*1 ∧
  (∀ id, id ∉ entries.*1 → acc.1 !! id = m0 !! id) ∧
  (NoDup entries.*1 →
   ∀ id p, (id, p) ∈ entries →
     ∃ l, acc.1 !! id = Some l ∧ acc.2 !! l = Some p ∧ (length h0 ≤ l)%nat).
Proof.
  cbn zeta. revert m0 h0.
  induction entries as [|[k q] entries IH]; intros m0 h0.
  - simpl. rewrite app_nil_r. split; [done|].
    split; [now rewrite (right_id_L ∅ (∪))|].
    split; [done|]. intros _ id p Hin. now apply elem_of_nil in Hin.
  - cbn [foldl].
    change (storePlayer (m0, h0) (k, q))
      with (<[k:=length h0]> m0, h0 ++ [q]).
    destruct (IH (<[k:=length h0]> m0) (h0 ++ [q])) as (H1 & H2 & H3 & H4).
    rewrite !fmap_cons. cbn [fst snd]. split; [|split; [|split]].
    + rewrite H1, <- app_assoc. done.
    + rewrite H2, dom_insert_L. apply set_eq. intros x.
      rewrite list_to_set_cons, !elem_of_union. tauto.
    + intros id Hnot. apply not_elem_of_cons in Hnot as [Hne Hnot].
      rewrite H3 by exact Hnot. now rewrite lookup_insert_ne.
    + intros Hnodup id p Hin. apply NoDup_cons in Hnodup as [Hk Hnodup].
      apply elem_of_cons in Hin as [Heq | Hin].
      * injection Heq as -> ->. exists (length h0).
        rewrite H3 by exact Hk. rewrite lookup_insert_eq. split; [done|].
        split; [|lia]. rewrite H1, <- app_assoc.
        rewrite lookup_app_r by lia. now rewrite Nat.sub_diag.
      * destruct (H4 Hnodup id p Hin) as (l & Hl & Hp & Hle).
        exists l. rewrite length_app in Hle. simpl in Hle.
        split; [exact Hl|]. split; [exact Hp | lia].
Qed.



Lemma movePlayer_dom (s : GameClient) entry :
  dom (players (movePlayer s entry)) = dom (players s).
Proof.
  destruct entry as [id delta].
  destruct (players s !! id) as [l|] eqn:Hl;
    [|now rewrite movePlayer_absent].
  destruct (heap s !! l) as [old|] eqn:Hold.
  - apply set_eq. intros id'. rewrite !elem_of_dom.
    destruct (decide (id' = id)) as [->|Hne].
    + destruct (movePlayer_present s id delta l old Hl Hold) as [-> _].
      rewrite Hl. split; eauto.
    + now rewrite movePlayer_other.
  - unfold movePlayer. now rewrite Hl, Hold.
Qed.






(** X22.  The local record stays the object stored under the local id
    through every frame, every resize and every message, except a
    [player_joined] or a [player_left] that names the local id. *)
Theorem alias_kept (s : GameClient) (e : Event) :
  aliased s → sparesLocal s e → aliased (step s e).
Proof.
  intros Hs He. destruct e as [now | message | w h]; unfold step.
  - pose proof (render_storeFields now s) as Heq. unfold storeFields in Heq.
    unfold aliased.
    assert (myPlayer (render now s) = myPlayer s) as -> by congruence.
    assert (playerId (render now s) = playerId s) as -> by congruence.
    assert (players (render now s) = players s) as -> by congruence.
    exact Hs.
  - apply handleServerMessage_aliased; [|exact Hs].
    destruct message; try done.
  - unfold onResize. now apply aliased_updateCamera.
Qed.

Lemma join_playerId (s : GameClient) pid ps avs :
  playerId (handleServerMessage (join_game_success pid ps avs) s) = Some pid.
Proof.
  simpl. destruct (storePlayers ps (heap s)) as [m h].
  match goal with |- playerId (updateCamera ?s0) = _ =>
    destruct (updateCamera_storeFields s0) as (-> & _) end.
  done.
Qed.

Lemma alias_kept_witness :
  let s := handleServerMessage joinTim (init 800 600 draws) in
  aliased (step s (Receive (player_left "p2"))).
Proof.
  cbn zeta. apply alias_kept.
  - apply (handleServerMessage_aliased joinTim); [exact I|].
    intros l Hl.
    destruct (init_fields 800 600 draws) as (_ & _ & _ & _ & _ & Hmy & _).
    rewrite Hmy in Hl. discriminate Hl.
  - unfold sparesLocal, joinTim. rewrite join_playerId. discriminate.
Defined.

(** ** Avatar images *)

Lemma pretty_Z_of_nat (n : nat) : pretty (Z.of_nat n) = pretty n.
Proof. now destruct n. Qed.

Lemma loadFrames_spec load name direction (i : nat) (l : list string)
  (cache : gmap string Image.t) :
  let cache' := loadFrames load name direction i l cache in
  (∀ key img, cache !! key = Some img → cache' !! key = Some img) ∧
  (∀ j src, l !! j = Some src → is_Some (load src) →
     is_Some (cache' !! cacheKey name direction (pretty (i + j)%nat))) ∧
  (∀ key img, cache' !! key = Some img →
     cache !! key = Some img ∨ ∃ src, src ∈ l ∧ load src = Some img).
Proof.
  cbn zeta. revert i cache. induction l as [|src l IH]; intros i cache.
  - simpl. split; [done|]. split; [|now left].
    intros j src' Hj. now rewrite lookup_nil in Hj.
  - cbn [loadFrames]. cbn zeta.
    set (key0 := cacheKey name direction (pretty i)).
    set (cache1 := match cache !! key0 with
                   | Some _ => cache
                   | None => match load src with
                             | Some img => <[key0:=img]> cache
                             | None => cache
                             end
                   end).
    assert (∀ key img, cache !! key = Some img → cache1 !! key = Some img)
      as Hkeep.
    { intros key img Hk. unfold cache1.
      destruct (cache !! key0) eqn:Hc; [done|].
      destruct (load src); [|done].
      rewrite lookup_insert_ne; [done|]. intros <-. congruence. }
    assert (is_Some (load src) → is_Some (cache1 !! key0)) as Hhere.
    { intros [img Himg]. unfold cache1.
      destruct (cache !! key0) eqn:Hc; [now rewrite Hc|].
      rewrite Himg, lookup_insert_eq. eauto. }
    assert (∀ key img, cache1 !! key = Some img →
              cache !! key = Some img ∨ load src = Some img) as Hfrom.
    { intros key img. unfold cache1.
      destruct (cache !! key0) eqn:Hc; [now left|].
      destruct (load src) as [img0|]; [|now left].
      rewrite lookup_insert. case_decide; [|now left].
      intros [= ->]. now right. }
    destruct (IH (S i) cache1) as (H1 & H2 & H3).
    split; [|split].
    + intros key img Hk. apply H1, Hkeep, Hk.
    + intros [|j] src' Hj Hload.
      * injection Hj as <-. rewrite Nat.add_0_r.
        destruct (Hhere Hload) as [img Himg]. exists img. now apply H1.
      * replace (i + S j)%nat with (S i + j)%nat by lia.
        now apply (H2 j src').
    + intros key img Hk. destruct (H3 key img Hk) as [Hc | (src' & Hin & Hl)].
      * destruct (Hfrom key img Hc) as [? | ?]; [now left|].
        right. exists src. split; [apply list_elem_of_here | done].
      * right. exists src'. split; [now apply list_elem_of_further | done].
Qed.

Lemma loadAvatarImagesForPlayer_spec load (s : GameClient) (player : Player.t)
  (cache : gmap string Image.t) (avatarData : Avatar.t) :
  avatars s !! Player.avatar player = Some avatarData →
  let cache' := loadAvatarImagesForPlayer load s player cache in
  (∀ key img, cache !! key = Some img → cache' !! key = Some img) ∧
  (∀ direction l j src,
     frames avatarData direction = Some l → l !! j = Some src →
     is_Some (load src) →
     is_Some (cache' !! cacheKey (Avatar.name avatarData) direction (pretty j))) ∧
  (∀ key img, cache' !! key = Some img →
     cache !! key = Some img ∨ ∃ src, load src = Some img).
Proof.
  intros Hav. cbn zeta. unfold loadAvatarImagesForPlayer. rewrite Hav.
  cbn zeta. cbn [foldl frames default].
  set (name := Avatar.name avatarData).
  destruct (loadFrames_spec load name north 0
              (Avatar.frames_north avatarData) cache) as (N1 & N2 & N3).
  set (c1 := loadFrames load name north 0 _ cache) in *.
  destruct (loadFrames_spec load name south 0
              (Avatar.frames_south avatarData) c1) as (S1 & S2 & S3).
  set (c2 := loadFrames load name south 0 _ c1) in *.
  destruct (loadFrames_spec load name east 0
              (Avatar.frames_east avatarData) c2) as (E1 & E2 & E3).
  set (c3 := loadFrames load name east 0 _ c2) in *.
  cbn zeta in *. split; [|split].
  - intros key img Hk. apply E1, S1, N1, Hk.
  - intros direction l j src Hl Hj Hload.
    destruct direction; simpl in Hl; try discriminate Hl;
      injection Hl as <-.
    + destruct (N2 j src Hj Hload) as [img Himg]. exists img.
      now apply E1, S1.
    + destruct (S2 j src Hj Hload) as [img Himg]. exists img. now apply E1.
    + now apply (E2 j src).
  - intros key img Hk.
    destruct (E3 key img Hk) as [Hc | (src & _ & Hl)]; [|right; eauto].
    destruct (S3 key img Hc) as [Hc' | (src & _ & Hl)]; [|right; eauto].
    destruct (N3 key img Hc') as [Hc'' | (src & _ & Hl)]; [now left|].
    right; eauto.
Qed.



(** X24.  After its avatar images are loaded, a player is painted: if the
    avatar is known and the frame that the player shows (the east frame,
    mirrored, for a player facing west) exists and its load succeeded, then
    [drawPlayer] is not skipped, it mirrors the image exactly for a player
    facing west, and it outlines exactly the player whose id is the local
    id.  With an unknown avatar or an empty cache nothing is painted. *)
Theorem drawPlayer_after_prefetch load (s : GameClient) (player : Player.t)
  (cache : gmap string Image.t) :
  (avatars s !! Player.avatar player = None → drawPlayer s cache player = None) ∧
  drawPlayer s ∅ player = None ∧
  (∀ avatarData l j src,
     avatars s !! Player.avatar player = Some avatarData →
     frames avatarData
       (match Player.facing player with west => east | d => d end) = Some l →
     Player.animationFrame player = Z.of_nat j →
     l !! j = Some src → is_Some (load src) →
     ∃ call,
       drawPlayer s (loadAvatarImagesForPlayer load s player cache) player
         = Some call ∧
       (DrawPlayer.flipHorizontal call = true ↔ Player.facing player = west) ∧
       (DrawPlayer.outline call = true ↔ Some (Player.id player) = playerId s) ∧
       DrawPlayer.label call = Player.username player).
Proof.
  split; [|split].
  - intros Hnone. unfold drawPlayer. now rewrite Hnone.
  - unfold drawPlayer. destruct (avatars s !! Player.avatar player); [|done].
    destruct (Player.facing player); cbn zeta; now rewrite lookup_empty.
  - intros avatarData l j src Hav Hl Hframe Hj Hload.
    destruct (loadAvatarImagesForPlayer_spec load s player cache avatarData Hav)
      as (_ & Hcached & _). cbn zeta in Hcached.
    destruct (Hcached _ l j src Hl Hj Hload) as [img Himg].
    unfold drawPlayer. rewrite Hav, Hframe, pretty_Z_of_nat.
    destruct (Player.facing player); cbn zeta; rewrite Himg;
      eexists; (split; [reflexivity|]); simpl;
      rewrite bool_decide_eq_true; done.
Qed.

Lemma drawPlayer_after_prefetch_witness :
  let knight := Avatar.mk "knight" ["n0.png"] ["s0.png"; "s1.png"] ["e0.png"] in
  let s := with_avatars {["knight" := knight]} joined in
  let load src := Some (Image.mk src 32 48) in
  is_Some (drawPlayer s (loadAvatarImagesForPlayer load s tim ∅) tim).
Proof.
  cbn zeta.
  destruct (drawPlayer_after_prefetch (λ src, Some (Image.mk src 32 48))
    (with_avatars
       {["knight" := Avatar.mk "knight" ["n0.png"] ["s0.png"; "s1.png"]
                       ["e0.png"]]} joined) tim ∅) as (_ & _ & H).
  destruct (H (Avatar.mk "knight" ["n0.png"] ["s0.png"; "s1.png"] ["e0.png"])
              ["s0.png"; "s1.png"] 0%nat "s0.png") as (call & Hcall & _).
  - apply lookup_singleton_eq.
  - reflexivity.
  - reflexivity.
  - reflexivity.
  - eauto.
  - rewrite Hcall. eauto.
Defined.

(** ** Keyboard, movement timer and footsteps *)

Lemma playFootstep_fields (now : Z) (started : bool) (c : Controls) :
  let c' := playFootstep now started c in
  pressedKeys c' = pressedKeys c ∧ lastDirection c' = lastDirection c ∧
  isMoving c' = isMoving c ∧ movementInterval c' = movementInterval c ∧
  readyState c' = readyState c ∧ timers c' = timers c ∧
  nextTimer c' = nextTimer c ∧ sendCalls c' = sendCalls c ∧
  audio c' = audio c.
Proof.
  cbn zeta. unfold playFootstep. destruct (audio c) eqn:Haudio; [|done].
  cbn [negb]. cbn zeta. destruct (_ <? _)%Z; [done|].
  destruct started; [|done]. simpl. now rewrite Haudio.
Qed.

Lemma currentDirection_None (keys : gset string) :
  currentDirection keys = None ↔ keys ∩ arrowKeys = ∅.
Proof.
  unfold currentDirection, arrowKeys. split.
  - repeat case_decide; try done. intros _. apply set_eq. intros key.
    rewrite elem_of_intersection, !elem_of_union, !elem_of_singleton.
    split; [|intros Hin; now apply elem_of_empty in Hin].
    intros [Hin [[[-> | ->] | ->] | ->]]; done.
  - intros Hempty.
    assert (∀ key, key ∈ ({["ArrowUp"; "ArrowDown"; "ArrowLeft"; "ArrowRight"]}
                          : gset string) → key ∉ keys) as Hnot.
    { intros key Harrow Hin.
      assert (key ∈ keys ∩ {["ArrowUp"; "ArrowDown"; "ArrowLeft"; "ArrowRight"]})
        as Hboth by now apply elem_of_intersection.
      rewrite Hempty in Hboth. now apply elem_of_empty in Hboth. }
    repeat case_decide; try done; exfalso;
      match goal with H : ?k ∈ keys |- _ => apply (Hnot k); [|exact H] end;
      rewrite !elem_of_union, !elem_of_singleton; tauto.
Qed.

Lemma currentDirection_Some (keys : gset string) (d : string) :
  currentDirection keys = Some d →
  d = "up" ∨ d = "down" ∨ d = "left" ∨ d = "right".
Proof.
  unfold currentDirection. repeat case_decide; intros [= <-]; auto.
Qed.

(** The controls that [handleMovement] leaves behind on an open socket,
    footsteps apart. *)
Lemma handleMovement_open (now : Z) (started : bool) (c : Controls) :
  readyState c = OPEN →
  let c' := handleMovement now started c in
  let cleared :=
    match movementInterval c with
    | Some id => delete id (timers c)
    | None => timers c
    end in
  pressedKeys c' = pressedKeys c ∧ readyState c' = OPEN ∧
  lastDirection c' = currentDirection (pressedKeys c) ∧
  isMoving c' = bool_decide (is_Some (currentDirection (pressedKeys c))) ∧
  match currentDirection (pressedKeys c) with
  | Some d =>
    sendCalls c' = sendCalls c ++ [(OPEN, move d)] ∧
    movementInterval c' = Some (nextTimer c) ∧
    timers c' = <[nextTimer c := d]> cleared ∧
    nextTimer c' = S (nextTimer c)
  | None =>
    sendCalls c' = sendCalls c ++ [(OPEN, stop)] ∧
    movementInterval c' = None ∧
    timers c' = cleared ∧
    nextTimer c' = nextTimer c
  end.
Proof.
  intros Hopen. cbn zeta. unfold handleMovement. rewrite Hopen. cbn [isOpen negb].
  cbn zeta. destruct (currentDirection (pressedKeys c)) as [d|] eqn:Hd.
  - match goal with |- context [playFootstep now started ?c0] =>
      destruct (playFootstep_fields now started c0)
        as (-> & -> & -> & -> & -> & -> & -> & -> & _) end.
    destruct (movementInterval c) as [id|] eqn:Hmi; simpl;
      rewrite ?Hmi, Hopen; repeat split.
  - destruct (movementInterval c) as [id|] eqn:Hmi; simpl;
      rewrite ?Hmi, Hopen; repeat split.
Qed.



Lemma handleMovement_closed (now : Z) (started : bool) (c : Controls) :
  readyState c ≠ OPEN → handleMovement now started c = c.
Proof.
  intros Hne. unfold handleMovement. now destruct (readyState c).
Qed.

Lemma intervalFires_closed id (now : Z) (started : bool) (c : Controls) :
  readyState c ≠ OPEN → intervalFires id now started c = c.
Proof.
  intros Hne. unfold intervalFires. destruct (timers c !! id); [|done].
  now destruct (readyState c).
Qed.

Lemma with_pressedKeys_fields keys (c : Controls) :
  let c' := with_pressedKeys keys c in
  lastDirection c' = lastDirection c ∧ isMoving c' = isMoving c ∧
  movementInterval c' = movementInterval c ∧ readyState c' = readyState c ∧
  timers c' = timers c ∧ nextTimer c' = nextTimer c ∧
  sendCalls c' = sendCalls c ∧ audio c' = audio c ∧
  lastFootstepTime c' = lastFootstepTime c ∧ footsteps c' = footsteps c.
Proof. done. Qed.

Lemma control_closed (c : Controls) (e : ControlEvent) :
  readyState c = CLOSED ∨ readyState c = CLOSING →
  (readyState (control c e) = CLOSED ∨ readyState (control c e) = CLOSING) ∧
  sendCalls (control c e) = sendCalls c ∧ timers (control c e) = timers c ∧
  movementInterval (control c e) = movementInterval c ∧
  lastDirection (control c e) = lastDirection c ∧
  isMoving (control c e) = isMoving c ∧
  footsteps (control c e) = footsteps c.
Proof.
  intros Hclosed.
  assert (readyState c ≠ OPEN) as Hne by (destruct Hclosed; congruence).
  destruct e as [code now started | code now started | id now started | |];
    cbn [control].
  - rewrite handleMovement_closed by exact Hne. done.
  - rewrite handleMovement_closed by exact Hne. done.
  - rewrite intervalFires_closed by exact Hne. done.
  - destruct Hclosed as [H | H]; rewrite H; rewrite H; auto 10.
  - simpl. auto 10.
Qed.

(** X26.  A socket that is not open swallows the input: [handleMovement]
    and the interval callback then change nothing and send nothing, a key
    event only updates the set of pressed keys.  Once the socket is closed
    or closing, no run of key presses, releases and timer ticks ever calls
    [send] again, starts or clears an interval, or plays a footstep. *)
Theorem closed_socket_swallows_input (c : Controls) :
  readyState c ≠ OPEN →
  (∀ now started, handleMovement now started c = c) ∧
  (∀ id now started, intervalFires id now started c = c) ∧
  (∀ code now started,
     control c (KeyDown code now started) =
       with_pressedKeys (pressedKeys c ∪ {[code]}) c ∧
     control c (KeyUp code now started) =
       with_pressedKeys (pressedKeys c ∖ {[code]}) c) ∧
  (readyState c = CLOSED ∨ readyState c = CLOSING →
   ∀ events,
     let c' := foldl control c events in
     sendCalls c' = sendCalls c ∧ timers c' = timers c ∧
     movementInterval c' = movementInterval c ∧
     lastDirection c' = lastDirection c ∧ isMoving c' = isMoving c ∧
     footsteps c' = footsteps c).
Proof.
  intros Hne. split; [|split; [|split]].
  - intros now started. now apply handleMovement_closed.
  - intros id now started. now apply intervalFires_closed.
  - intros code now started. cbn [control].
    now rewrite !handleMovement_closed.
  - intros Hclosed events. cbn zeta. clear Hne. revert c Hclosed.
    induction events as [|e events IH]; intros c Hclosed; [done|].
    cbn [foldl].
    destruct (control_closed c e Hclosed)
      as (Hc & E1 & E2 & E3 & E4 & E5 & E6).
    destruct (IH (control c e) Hc) as (-> & -> & -> & -> & -> & ->).
    done.
Qed.

Lemma closed_socket_swallows_input_witness :
  sendCalls (foldl control (with_readyState CLOSED (newControls true))
               [KeyDown "ArrowUp" 5000 true; KeyUp "ArrowUp" 5100 true]) = [].
Proof.
  destruct (closed_socket_swallows_input
              (with_readyState CLOSED (newControls true))) as (_ & _ & _ & H).
  - discriminate.
  - apply H. now left.
Defined.

Lemma newControls_invariant (audio : bool) : controlsInvariant (newControls audio).
Proof.
  unfold controlsInvariant, newControls; cbn.
  split; [|split; [|split; [|split; [|split; [|split]]]]].
  - intros id d H. now rewrite lookup_empty in H.
  - split; [discriminate|]. intros [d H]. discriminate.
  - discriminate.
  - lia.
  - constructor.
  - done.
  - intros [H | H]; [discriminate | done].
Qed.

Lemma cleared_empty (c : Controls) :
  controlsInvariant c →
  ∀ id,
    match movementInterval c with
    | Some id0 => delete id0 (timers c)
    | None => timers c
    end !! id = None.
Proof.
  intros (I1 & _) id.
  destruct (movementInterval c) as [id0|] eqn:Hmi.
  - destruct (decide (id0 = id)) as [-> | Hne].
    + apply lookup_delete_eq.
    + rewrite lookup_delete_ne by exact Hne.
      destruct (timers c !! id) as [d|] eqn:Ht; [|done].
      destruct (I1 id d Ht) as (Hm & _). congruence.
  - destruct (timers c !! id) as [d|] eqn:Ht; [|done].
    destruct (I1 id d Ht) as (Hm & _). congruence.
Qed.

Lemma handleMovement_invariant (now : Z) (started : bool) (c : Controls) :
  controlsInvariant c → controlsInvariant (handleMovement now started c).
Proof.
  intros Hinv.
  destruct (readyState c) eqn:Hstate;
    try (rewrite handleMovement_closed by congruence; exact Hinv).
  pose proof (cleared_empty c Hinv) as Hcleared.
  pose proof (handleMovement_open now started c Hstate) as H.
  cbn zeta in H. destruct H as (_ & Hr & Hl & Hm & H).
  destruct Hinv as (I1 & I2 & I3 & I4 & I5 & I6 & I7).
  destruct (I7 (or_introl Hstate)) as [rest Hrest].
  unfold controlsInvariant. rewrite Hr, Hl, Hm.
  destruct (currentDirection (pressedKeys c)) as [d|];
    destruct H as (-> & -> & -> & ->).
  - split; [|split; [|split; [|split; [|split; [|split]]]]].
    + intros id d' Hlook.
      destruct (decide (nextTimer c = id)) as [<- | Hne].
      * rewrite lookup_insert_eq in Hlook. injection Hlook as <-.
        split; [done|]. split; [done|]. now apply bool_decide_eq_true.
      * rewrite lookup_insert_ne in Hlook by exact Hne.
        now rewrite Hcleared in Hlook.
    + split; [eauto|]. intros _. now apply bool_decide_eq_true.
    + intros id [= <-]. lia.
    + lia.
    + apply Forall_app. split; [exact I5|]. now repeat constructor.
    + discriminate.
    + intros _. rewrite Hrest. now eexists.
  - split; [|split; [|split; [|split; [|split; [|split]]]]].
    + intros id d' Hlook. now rewrite Hcleared in Hlook.
    + split.
      * intros Hb. apply bool_decide_eq_true in Hb. exact Hb.
      * intros [d' Hd]. discriminate.
    + discriminate.
    + exact I4.
    + apply Forall_app. split; [exact I5|]. now repeat constructor.
    + discriminate.
    + intros _. rewrite Hrest. now eexists.
Qed.

Lemma intervalFires_fields (id : nat) (now : Z) (started : bool) (c : Controls) :
  let c' := intervalFires id now started c in
  pressedKeys c' = pressedKeys c ∧ lastDirection c' = lastDirection c ∧
  isMoving c' = isMoving c ∧ movementInterval c' = movementInterval c ∧
  readyState c' = readyState c ∧ timers c' = timers c ∧
  nextTimer c' = nextTimer c ∧
  sendCalls c' =
    match timers c !! id with
    | Some d =>
      if isOpen (readyState c) && isMoving c
      then sendCalls c ++ [(readyState c, move d)] else sendCalls c
    | None => sendCalls c
    end.
Proof.
  cbn zeta. unfold intervalFires.
  destruct (timers c !! id) as [d|]; [|done].
  destruct (isOpen (readyState c) && isMoving c); [|done].
  destruct (playFootstep_fields now started (sendMoveCommand d c))
    as (-> & -> & -> & -> & -> & -> & -> & -> & _).
  done.
Qed.

Lemma intervalFires_invariant (id : nat) (now : Z) (started : bool) (c : Controls) :
  controlsInvariant c → controlsInvariant (intervalFires id now started c).
Proof.
  intros (I1 & I2 & I3 & I4 & I5 & I6 & I7).
  destruct (intervalFires_fields id now started c)
    as (_ & El & Em & Ei & Er & Et & En & Es).
  unfold controlsInvariant. rewrite El, Em, Ei, Er, Et, En, Es.
  split; [exact I1|]. split; [exact I2|]. split; [exact I3|].
  split; [exact I4|].
  destruct (timers c !! id) as [d|]; [|done].
  destruct (readyState c) eqn:Hstate; cbn [isOpen andb]; try done.
  destruct (isMoving c); [|done].
  destruct (I7 (or_introl eq_refl)) as [rest Hrest].
  split; [|split].
  - apply Forall_app. split; [exact I5|]. now repeat constructor.
  - discriminate.
  - intros _. rewrite Hrest. now eexists.
Qed.

Lemma control_invariant (c : Controls) (e : ControlEvent) :
  controlsInvariant c → controlsInvariant (control c e).
Proof.
  intros Hinv.
  destruct e as [code now started | code now started | id now started | |];
    cbn [control].
  - apply handleMovement_invariant. exact Hinv.
  - apply handleMovement_invariant. exact Hinv.
  - apply intervalFires_invariant. exact Hinv.
  - destruct (readyState c) eqn:Hstate; try exact Hinv.
    destruct Hinv as (I1 & I2 & I3 & I4 & I5 & I6 & I7).
    unfold controlsInvariant; cbn.
    rewrite (I6 Hstate).
    split; [exact I1|]. split; [exact I2|]. split; [exact I3|].
    split; [exact I4|]. split; [now repeat constructor|].
    split; [discriminate|]. intros _. now eexists.
  - destruct Hinv as (I1 & I2 & I3 & I4 & I5 & I6 & I7).
    unfold controlsInvariant; cbn.
    split; [exact I1|]. split; [exact I2|]. split; [exact I3|].
    split; [exact I4|]. split; [exact I5|].
    split; [discriminate|]. intros [H | H]; [discriminate|].
    apply I7. now right.
Qed.

Lemma foldl_control_invariant (events : list ControlEvent) (c : Controls) :
  controlsInvariant c → controlsInvariant (foldl control c events).
Proof.
  revert c. induction events as [|e events IH]; intros c Hinv; [exact Hinv|].
  cbn [foldl]. apply IH, control_invariant, Hinv.
Qed.

Lemma controls_invariant (audio : bool) (events : list ControlEvent) :
  controlsInvariant (controls audio events).
Proof. apply foldl_control_invariant, newControls_invariant. Qed.

(** X27.  Whatever keys go down and up, whichever timers fire and whenever
    the socket opens or closes: at most one interval timer is live, and it
    is the one whose handle is in [movementInterval]; it repeats the
    direction in [lastDirection] and the player is then marked as moving;
    [isMoving] holds exactly when [lastDirection] is set; every call to
    [socket.send] found the socket open, the first one sent the join request
    for "Tim", and nothing at all is sent while the socket is connecting. *)
Theorem movement_timer_invariant (audio : bool) (events : list ControlEvent) :
  let c := controls audio events in
  (∀ id d, timers c !! id = Some d →
     movementInterval c = Some id ∧ lastDirection c = Some d ∧
     isMoving c = true) ∧
  (∀ id1 id2, is_Some (timers c !! id1) → is_Some (timers c !! id2) →
     id1 = id2) ∧
  (isMoving c = true ↔ is_Some (lastDirection c)) ∧
  Forall (λ call, call.1 = OPEN) (sendCalls c) ∧
  (readyState c = CONNECTING → sendCalls c = []) ∧
  (sendCalls c ≠ [] → head (sendCalls c) = Some (OPEN, join_game "Tim")).
Proof.
  cbn zeta.
  destruct (controls_invariant audio events)
    as (I1 & I2 & I3 & I4 & I5 & I6 & I7).
  split; [exact I1|]. split.
  - intros id1 id2 [d1 H1] [d2 H2].
    destruct (I1 id1 d1 H1) as (E1 & _), (I1 id2 d2 H2) as (E2 & _).
    congruence.
  - split; [exact I2|]. split; [exact I5|]. split; [exact I6|].
    intros Hne. destruct (I7 (or_intror Hne)) as [rest ->]. done.
Qed.

Lemma spaced_snoc (l : list Z) (a t : Z) :
  spaced a l → (300 ≤ t - default a (last l))%Z → spaced a (l ++ [t]).
Proof.
  revert a. induction l as [|x l IH]; intros a Hl Ht; cbn in *.
  - done.
  - destruct Hl as [Hx Hl]. split; [exact Hx|]. apply IH; [exact Hl|].
    rewrite last_cons in Ht. now destruct (last l).
Qed.

Lemma spaced_lookup (l : list Z) (a : Z) (i : nat) (t1 t2 : Z) :
  spaced a l → l !! i = Some t1 → l !! S i = Some t2 → (300 ≤ t2 - t1)%Z.
Proof.
  revert a i. induction l as [|x l IH]; intros a i Hl H1 H2; [done|].
  destruct Hl as [_ Hl]. destruct i as [|i].
  - injection H1 as ->. destruct l as [|y l]; [done|].
    injection H2 as ->. now destruct Hl.
  - exact (IH x i Hl H1 H2).
Qed.

Lemma playFootstep_footsteps (a : bool) (now : Z) (started : bool) (c : Controls) :
  footstepsInvariant a c → footstepsInvariant a (playFootstep now started c).
Proof.
  intros Hinv. unfold playFootstep.
  destruct (negb (audio c)) eqn:Haudio; [exact Hinv|].
  cbn zeta. destruct (Z.ltb_spec (now - lastFootstepTime c) 300) as [Hlt | Hge];
    [exact Hinv|].
  destruct started; [|exact Hinv].
  destruct Hinv as (Ha & Hs & Hl & Hn).
  unfold footstepsInvariant, with_footstep; cbn.
  split; [exact Ha|]. split; [|split].
  - apply spaced_snoc; [exact Hs|]. now rewrite <- Hl.
  - now rewrite last_snoc.
  - intros ->. now rewrite Ha in Haudio.
Qed.

Lemma handleMovement_footsteps (a : bool) (now : Z) (started : bool) (c : Controls) :
  footstepsInvariant a c → footstepsInvariant a (handleMovement now started c).
Proof.
  intros Hinv. unfold handleMovement.
  destruct (isOpen (readyState c)); cbn [negb]; [|exact Hinv].
  cbn zeta. destruct (currentDirection (pressedKeys c)) as [d|].
  - apply playFootstep_footsteps.
    destruct (movementInterval c); exact Hinv.
  - destruct (movementInterval c); exact Hinv.
Qed.

Lemma control_footsteps (a : bool) (c : Controls) (e : ControlEvent) :
  footstepsInvariant a c → footstepsInvariant a (control c e).
Proof.
  intros Hinv.
  destruct e as [code now started | code now started | id now started | |];
    cbn [control].
  - apply handleMovement_footsteps. exact Hinv.
  - apply handleMovement_footsteps. exact Hinv.
  - unfold intervalFires. destruct (timers c !! id) as [d|]; [|exact Hinv].
    destruct (isOpen (readyState c) && isMoving c); [|exact Hinv].
    apply playFootstep_footsteps. exact Hinv.
  - destruct (readyState c); exact Hinv.
  - exact Hinv.
Qed.

Lemma controls_footsteps (audio : bool) (events : list ControlEvent) :
  footstepsInvariant audio (controls audio events).
Proof.
  unfold controls.
  assert (footstepsInvariant audio (newControls audio)) as Hnew.
  { unfold footstepsInvariant, newControls; cbn. done. }
  revert Hnew. generalize (newControls audio).
  induction events as [|e events IH]; intros c Hinv; [exact Hinv|].
  cbn [foldl]. apply IH, control_footsteps, Hinv.
Qed.

(** X28.  Footstep sounds are throttled: over any run of key presses,
    releases, timer ticks and socket events, two successive footsteps are
    started at least 300 ms apart on the clock, [lastFootstepTime] is the
    start of the most recent one (0 before the first), and without an audio
    context no footstep is ever started. *)
Theorem footsteps_throttled (audio : bool) (events : list ControlEvent) :
  let c := controls audio events in
  (∀ i t1 t2, footsteps c !! i = Some t1 → footsteps c !! S i = Some t2 →
     (300 ≤ t2 - t1)%Z) ∧
  lastFootstepTime c = default 0%Z (last (footsteps c)) ∧
  (audio = false → footsteps c = []).
Proof.
  cbn zeta. destruct (controls_footsteps audio events) as (_ & Hs & Hl & Hn).
  split; [|split; [exact Hl | exact Hn]].
  intros i t1 t2. apply spaced_lookup with (a := 0%Z). exact Hs.
Qed.

(** X29.  The callback of a movement interval.  A handle whose interval has
    been cleared, or was never set, does nothing.  A live interval carries
    the direction resolved last; on an open socket its tick always sends one
    [move] with that direction (the test of [isMoving] never fails then),
    and it does nothing when the socket is not open.  In no case does a
    tick touch the keys, the direction, the timers or the socket. *)
Theorem interval_tick (audio : bool) (events : list ControlEvent)
    (id : nat) (now : Z) (started : bool) :
  let c := controls audio events in
  let c' := intervalFires id now started c in
  (timers c !! id = None → c' = c) ∧
  (∀ d, timers c !! id = Some d →
     lastDirection c = Some d ∧ movementInterval c = Some id ∧
     (readyState c = OPEN → sendCalls c' = sendCalls c ++ [(OPEN, move d)]) ∧
     (readyState c ≠ OPEN → c' = c)) ∧
  pressedKeys c' = pressedKeys c ∧ lastDirection c' = lastDirection c ∧
  isMoving c' = isMoving c ∧ movementInterval c' = movementInterval c ∧
  timers c' = timers c ∧ readyState c' = readyState c.
Proof.
  cbn zeta.
  destruct (controls_invariant audio events) as (I1 & _).
  destruct (intervalFires_fields id now started (controls audio events))
    as (Ek & El & Em & Ei & Er & Et & _ & Es).
  split; [|split].
  - intros Hnone. unfold intervalFires. now rewrite Hnone.
  - intros d Hd. destruct (I1 id d Hd) as (Hmi & Hld & Hmv).
    split; [exact Hld|]. split; [exact Hmi|]. split.
    + intros Hopen. rewrite Es, Hd, Hopen, Hmv. done.
    + intros Hne. now apply intervalFires_closed.
  - auto 10.
Qed.

(** A short session: the socket opens, the up key goes down, the interval
    ticks twice, the left key goes down as well (up still wins), then the
    up key is released, the stale first interval ticks, and both keys end
    up released. *)
Example controls_session :
  let c := controls true
             [SocketOpens; KeyDown "ArrowUp" 5000 true;
              IntervalFires 1 5100 true; IntervalFires 1 5300 true;
              KeyDown "ArrowLeft" 5400 true; KeyUp "ArrowUp" 5700 true;
              IntervalFires 1 5800 true; KeyUp "ArrowLeft" 5900 true] in
  sendCalls c =
    [(OPEN, join_game "Tim"); (OPEN, move "up"); (OPEN, move "up");
     (OPEN, move "up"); (OPEN, move "up"); (OPEN, move "left");
     (OPEN, stop)] ∧
  footsteps c = [5000; 5300; 5700]%Z ∧
  movementInterval c = None ∧ timers c = ∅ ∧ nextTimer c = 4%nat ∧
  isMoving c = false.
Proof. vm_compute. repeat split. Qed.
